(** * MapMatcher: path selection, instance reuse and result composition

    A shallow embedding of [packages/navi/src/MapMatcher.ts]: the [map]
    builder, the constructor of [MapMatcherImplementation] and its
    re-entrant [execute] pass.

    The functions that [MapMatcher.ts] imports from other files of the
    package ([Mapping], [Resolver], [Segments], [Matcher]) are the fields
    of the interface [Collaborators]; the development only relies on the way
    [MapMatcher.ts] calls them.  Objects that are compared by identity are
    modelled by what identifies them: a matcher class by a value of a type
    with decidable equality, a child instance by its place in a store. *)

From Stdlib Require Import ZArith Lia.
From stdpp Require Import base option list strings sorting.

Local Open Scope string_scope.
Local Open Scope nat_scope.

(** ** Strings *)

(** [msg] contains [p] as a contiguous piece of text. *)
Definition names_pattern (msg p : string) : Prop :=
  ∃ pre post : string, msg = pre ++ p ++ post.

(** [Array.prototype.join]. *)
Definition join (sep : string) (l : list string) : string := String.concat sep l.

(** [compareStrings(a, b)]: [a < b ? -1 : a > b ? 1 : 0].  Strings are
    compared unit by unit, as [String.ltb] does on the characters. *)
Definition compareStrings (a b : string) : Z :=
  if String.ltb a b then (-1)%Z else if String.ltb b a then 1%Z else 0%Z.

(** A string used as a condition: the empty string alone is falsy. *)
Definition truthy (s : string) : bool := negb (String.eqb s "").

Module MapMatcher.

Section Model.

(** ** Opaque data owned by the collaborators *)

Context {RequestData EnvData : Type}.   (* the other fields of a request / an environment *)
Context {Matcher : Type}.               (* a matcher class, compared by identity *)
Context `{EqDecision Matcher}.
Context {Resolvable : Type}.            (* a function that resolves to a matcher *)
Context {Resolver : Type}.              (* the resolver object handed down to children *)
Context {ResolverState : Type}.         (* what the resolver remembers between calls *)
Context {Error RegExp Segment : Type}.
Context {InstanceState : Type}.         (* the fields of a child matcher instance *)

(** ** Data model *)

(** Modelled from the spec: a request, [{ path, ... }]; its declaration is
    not in [MapMatcher.ts], which reads [path] only. *)
Record Request := { path : string; requestData : RequestData }.

(** Modelled from the spec: an environment, [{ request, context, ... }];
    [MapMatcher.ts] reads [request] only. *)
Record Env := { request : Request; envData : EnvData }.

(** [MaybeResolvableMatcher]: told apart in the source by the [isMatcher]
    flag of the value. *)
Inductive MaybeResolvableMatcher :=
| IsMatcher (m : Matcher)
| IsResolvable (r : Resolvable).

(** Modelled from the spec: a pattern entry, declared in [Mapping.ts], with
    the fields that [MapMatcher.ts] reads.  [key] is the sort key. *)
Record Mapping := {
  pattern : string;
  key : string;
  regExp : RegExp;
  maybeResolvableMatcher : MaybeResolvableMatcher;
}.

(** Modelled from the spec: the options a matcher is built with, declared
    in [Matcher.ts]: an environment, the resolver and the trailing-slash
    flag. *)
Record MatcherOptions := {
  env : Env;
  resolver : Resolver;
  appendFinalSlash : bool;
}.

(** Modelled from the spec: a resolution handle,
    [{ id: number, value?: Handler, error?: Error }], declared in
    [Resolver.ts]. *)
Record Resolution := {
  id : Z;
  value : option Matcher;
  error : option Error;
}.

(** Modelled from the spec: an evaluation result, declared in
    [Matcher.ts]. *)
Record MatcherResult := {
  resolutionIds : list Z;
  segments : list Segment;
}.

(** A value stored under a pattern of the paths object: [typeof] says
    ['function'] or it does not. *)
Inductive PathValue :=
| Callable (m : MaybeResolvableMatcher)
| NotCallable.

(** A paths object, as the list of its own properties in [Object.keys]
    order. *)
Definition MapMatcherPaths : Type := list (string * PathValue).

(** The static side of the class returned by [map]. *)
Record MapMatcherClass := {
  paths : MapMatcherPaths;
  orderedMappings : list Mapping;
  patterns : list string;
}.

(** Child instances are objects: a reference is an index into the store of
    instances, and [new] extends the store. *)
Abbreviation Ref := nat (only parsing).

Record Child := {
  mapping : Mapping;
  matcherOptions : MatcherOptions;
  child_maybeResolvableMatcher : MaybeResolvableMatcher;
}.

Record Last := {
  matcherInstance : option Ref;
  matcher : option Matcher;
}.

(** A [MapMatcherImplementation] object.  [this_env], [this_resolver] and
    [this_appendFinalSlash] are the fields that [MatcherBase] (declared in
    [Matcher.ts]) keeps from the options it is built with;
    [this_constructor] is [this.constructor], the class returned by [map]. *)
Record MapMatcherImplementation := {
  this_env : Env;
  this_resolver : Resolver;
  this_appendFinalSlash : bool;
  this_constructor : MapMatcherClass;
  child : option Child;
  last : option Last;
}.

Definition set_last (this : MapMatcherImplementation) (l : Last) : MapMatcherImplementation :=
  {| this_env := this_env this;
     this_resolver := this_resolver this;
     this_appendFinalSlash := this_appendFinalSlash this;
     this_constructor := this_constructor this;
     child := child this;
     last := Some l |}.

(** What lies outside the node: the resolver's memory and the store of
    child instances. *)
Record World := {
  resolverState : ResolverState;
  instances : list InstanceState;
}.

(** ** Collaborators

    What [MapMatcher.ts] imports from [Mapping], [Resolver], [Segments] and
    [Matcher], as an interface.  [resolve] and [getResult] may read and
    change the resolver's memory; [newInstance] is [new childMatcher(options)]
    and [getResult] is [instance.getResult()]. *)
Class Collaborators := {
  mappingAgainstPathname : Env → Mapping → bool → option Env;
  createMapping : string → MaybeResolvableMatcher → Mapping;
  resolve : Resolver → Env → Resolvable → ResolverState → Resolution * ResolverState;
  createSegment : string → Request → MapMatcherClass → bool → Segment;
  createNotFoundSegment : Request → Segment;
  createNotReadySegment : Request → option Error → bool → Segment;
  newInstance : Matcher → MatcherOptions → InstanceState;
  getResult : InstanceState → ResolverState → MatcherResult * InstanceState * ResolverState;
}.

Context `{!Collaborators}.

(** ** The constructor *)

Definition childOf (mapping : Mapping) (childEnv : Env)
    (this_resolver : Resolver) (this_appendFinalSlash : bool) : Child :=
  {| mapping := mapping;
     matcherOptions := {| env := childEnv;
                          resolver := this_resolver;
                          appendFinalSlash := this_appendFinalSlash |};
     child_maybeResolvableMatcher := maybeResolvableMatcher mapping |}.

(** [for (let i = n - 1; i >= 0; i--)], with [break] on the first mapping
    that [mappingAgainstPathname] accepts.  Besides [this.child] the loop
    returns the mappings it handed to [mappingAgainstPathname], in call
    order. *)
Fixpoint constructor_loop (this_env : Env) (this_resolver : Resolver)
    (this_appendFinalSlash : bool) (mappings : list Mapping) (n : nat)
    : option Child * list Mapping :=
  match n with
  | 0 => (None, [])
  | S i =>
    match mappings !! i with
    | Some mapping =>
      match mappingAgainstPathname this_env mapping this_appendFinalSlash with
      | Some childEnv =>
        (Some (childOf mapping childEnv this_resolver this_appendFinalSlash), [mapping])
      | None =>
        let '(child, tested) :=
          constructor_loop this_env this_resolver this_appendFinalSlash mappings i in
        (child, mapping :: tested)
      end
    | None => (None, [])   (* no such index: the loop starts at [length - 1] *)
    end
  end.

(** [new Class(options)] for a class returned by [map]: the new object and
    the mappings whose path test was run. *)
Definition constructor (cls : MapMatcherClass) (options : MatcherOptions)
    : MapMatcherImplementation * list Mapping :=
  let mappings := orderedMappings cls in
  let '(child, tested) :=
    match mappings with
    | [mapping0] =>
      if String.eqb (pattern mapping0) "/" then
        (Some (childOf mapping0 (env options) (resolver options) (appendFinalSlash options)), [])
      else
        constructor_loop (env options) (resolver options) (appendFinalSlash options)
          mappings (length mappings)
    | _ =>
      constructor_loop (env options) (resolver options) (appendFinalSlash options)
        mappings (length mappings)
    end in
  ({| this_env := env options;
      this_resolver := resolver options;
      this_appendFinalSlash := appendFinalSlash options;
      this_constructor := cls;
      child := child;
      last := None |}, tested).

(** ** Evaluation: a state monad over [World]

    [None] stands for a pass that does not return (a run-time exception of
    the host language, such as reading a field of [undefined]). *)

Definition M (A : Type) : Type := World → option (A * World).

Definition ret {A} (a : A) : M A := λ w, Some (a, w).

Definition bind {A B} (m : M A) (k : A → M B) : M B :=
  λ w, match m w with
       | Some (a, w') => k a w'
       | None => None
       end.

Definition throw {A} : M A := λ _, None.

Notation "'let*' x ':=' m 'in' k" := (bind m (λ x, k))
  (at level 10, x pattern, m at level 200, k at level 200, only parsing).

(** [this.resolver.resolve(env, resolvable)] *)
Definition call_resolve (r : Resolver) (e : Env) (f : Resolvable) : M Resolution :=
  λ w, let '(res, rs) := resolve r e f (resolverState w) in
       Some (res, {| resolverState := rs; instances := instances w |}).

(** [new childMatcher(options)]: a fresh object at the end of the store. *)
Definition call_new (m : Matcher) (options : MatcherOptions) : M Ref :=
  λ w, Some (length (instances w),
             {| resolverState := resolverState w;
                instances := instances w ++ [newInstance m options] |}).

(** [instance.getResult()]: runs on the object the reference points to and
    may change that object's fields. *)
Definition call_getResult (i : Ref) : M MatcherResult :=
  λ w, match instances w !! i with
       | Some s =>
         let '(result, s', rs) := getResult s (resolverState w) in
         Some (result, {| resolverState := rs; instances := <[i := s']> (instances w) |})
       | None => None
       end.

(** [execute()], lines 98 to 166.  The object is passed in and handed back
    with its [last] field as the pass leaves it.  The local array
    [resolutionIds] is written [resolutionIds'], the field of a result
    keeps the plain name. *)
Definition execute (this : MapMatcherImplementation)
    : M (MatcherResult * MapMatcherImplementation) :=
  let* (resolutionIds', childMatcherInstance, childMatcherResolution, this) :=
    match child this with
    | Some this_child =>
      let* (resolutionIds', childMatcherResolution, childMatcher) :=
        match child_maybeResolvableMatcher this_child with
        | IsMatcher m => ret ([], None, Some m)
        | IsResolvable f =>
          let* childMatcherResolution :=
            call_resolve (this_resolver this) (env (matcherOptions this_child)) f in
          ret ([id childMatcherResolution],
               Some childMatcherResolution,
               value childMatcherResolution)
        end in
      let construct : M (option Ref) :=
        match childMatcher with
        | Some m =>
          let* i := call_new m (matcherOptions this_child) in ret (Some i)
        | None => ret None
        end in
      let* childMatcherInstance :=
        match last this with
        | None => construct
        | Some this_last =>
          if decide (matcher this_last = childMatcher)
          then ret (matcherInstance this_last)
          else construct
        end in
      ret (resolutionIds', childMatcherInstance, childMatcherResolution,
           set_last this {| matcher := childMatcher;
                            matcherInstance := childMatcherInstance |})
    | None => ret ([], None, None, this)
    end in
  let* childMatcherResult :=
    match childMatcherInstance with
    | Some i => let* result := call_getResult i in ret (Some result)
    | None => ret None
    end in
  let* nextSegments :=
    match childMatcherResult with
    | Some result => ret (segments result)
    | None =>
      match childMatcherResolution with
      | Some resolution =>
        match child this with
        | Some this_child =>
          ret [createNotReadySegment
                 (request (env (matcherOptions this_child)))
                 (error resolution)
                 (this_appendFinalSlash this)]
        | None => throw
        end
      | None =>
        if truthy (path (request (this_env this)))
        then ret [createNotFoundSegment (request (this_env this))]
        else ret []
      end
    end in
  let mapSegment :=
    createSegment "map" (request (this_env this)) (this_constructor this)
      (this_appendFinalSlash this) in
  ret ({| resolutionIds :=
            resolutionIds' ++ match childMatcherResult with
                             | Some result => resolutionIds result
                             | None => []
                             end;
          segments := [mapSegment] ++ nextSegments |},
       this).

(** ** The builder *)

Inductive MapOptions :=
| NoOptions                                   (* [undefined] *)
| FunctionOption (m : MaybeResolvableMatcher) (* [typeof options === 'function'] *)
| PathsOption (paths : MapMatcherPaths).

Inductive ConstructionError :=
| PlainError (message : string)               (* [new Error(...)] *)
| TypeError (message : string).               (* [new TypeError(...)] *)

(** [paths[pattern]]: the value of the first property of that name. *)
Fixpoint get_path (paths : MapMatcherPaths) (pattern : string) : option PathValue :=
  match paths with
  | [] => None
  | (k, v) :: rest => if String.eqb k pattern then Some v else get_path rest pattern
  end.

(** [typeof paths[pattern] !== 'function'] *)
Definition not_a_function (paths : MapMatcherPaths) (pattern : string) : bool :=
  match get_path paths pattern with
  | Some (Callable _) => false
  | _ => true
  end.

(** [Array.prototype.sort] with [compareStrings] on the keys, as a stable
    insertion sort: an entry goes after the entries that do not compare
    greater. *)
Fixpoint sort_insert (x : Mapping) (l : list Mapping) : list Mapping :=
  match l with
  | [] => [x]
  | y :: rest =>
    if (compareStrings (key y) (key x) <=? 0)%Z
    then y :: sort_insert x rest
    else x :: y :: rest
  end.

Definition sort_mappings (l : list Mapping) : list Mapping :=
  fold_left (λ sorted x, sort_insert x sorted) l [].

(** [map(options)], lines 169 to 258.  The block guarded by
    [process.env.NODE_ENV !== 'production'] only writes warnings to the
    console and is left out. *)
Definition map (options : MapOptions) : ConstructionError + MapMatcherClass :=
  match options with
  | NoOptions =>
    inl (PlainError "match() must be supplied with a paths object.")
  | _ =>
    let paths : MapMatcherPaths :=
      match options with
      | FunctionOption f => [("/", Callable f)]
      | PathsOption paths => paths
      | NoOptions => []
      end in
    let patterns := fmap fst paths in
    let invalidPaths := filter (λ pattern, not_a_function paths pattern = true) patterns in
    if (0 <? length invalidPaths) then
      let singular := length invalidPaths =? 1 in
      inl (TypeError
        ("The given " ++ (if singular then "path" else "paths") ++ ": " ++
         join ", " invalidPaths ++ " " ++ (if singular then "is" else "are") ++ " " ++
         "invalid. Paths should be a matcher object or function that returns one. See https://frontarm.com/navi/reference/declarations/"))
    else
      let mappings :=
        sort_mappings
          (omap (λ pattern,
                   match get_path paths pattern with
                   | Some (Callable m) => Some (createMapping pattern m)
                   | _ => None
                   end) patterns) in
      inr {| paths := paths; orderedMappings := mappings; patterns := patterns |}
  end.

(** ** Vocabulary of the statements *)

(** A later state of the same object: the object after any number of
    evaluation passes, each run in a world of its own. *)
Inductive lifetime (this : MapMatcherImplementation) : MapMatcherImplementation → Prop :=
| lifetime_start : lifetime this this
| lifetime_pass this1 this2 w w' result :
    lifetime this this1 →
    execute this1 w = Some ((result, this2), w') →
    lifetime this this2.

(** The memo of an object that the code itself has written: it holds an
    instance exactly when it holds a matcher, and the instance is an object
    of the store. *)
Definition memo_ok (this : MapMatcherImplementation) (w : World) : Prop :=
  match last this with
  | None => True
  | Some l =>
    (matcher l = None ↔ matcherInstance l = None) ∧
    (∀ i, matcherInstance l = Some i → i < length (instances w))
  end.

(** The states the code itself produces: a new node in any world, and from
    there passes, while the resolver settles and the store grows between
    them. *)
Inductive history : MapMatcherImplementation → World → Prop :=
| history_new cls options w :
    history (constructor cls options).1 w
| history_pass this w result this' w' :
    history this w →
    execute this w = Some ((result, this'), w') →
    history this' w'
| history_between this w rs more :
    history this w →
    history this {| resolverState := rs; instances := instances w ++ more |}.

(** The matcher a pass works with ([childMatcher] in the source) for a
    selected child, and the resolution the pass obtained for it. *)
Definition resolution_of (this : MapMatcherImplementation) (this_child : Child) (w : World)
    : option Resolution :=
  match child_maybeResolvableMatcher this_child with
  | IsMatcher _ => None
  | IsResolvable f =>
    Some (fst (resolve (this_resolver this) (env (matcherOptions this_child)) f (resolverState w)))
  end.

Definition childMatcher_of (this : MapMatcherImplementation) (this_child : Child) (w : World)
    : option Matcher :=
  match child_maybeResolvableMatcher this_child with
  | IsMatcher m => Some m
  | IsResolvable f =>
    value (fst (resolve (this_resolver this) (env (matcherOptions this_child)) f (resolverState w)))
  end.

(** The world after the pass has asked the resolver about the selected
    child (unchanged when the child is a matcher already). *)
Definition after_resolve (this : MapMatcherImplementation) (this_child : Child) (w : World)
    : World :=
  match child_maybeResolvableMatcher this_child with
  | IsMatcher _ => w
  | IsResolvable f =>
    {| resolverState :=
         snd (resolve (this_resolver this) (env (matcherOptions this_child)) f (resolverState w));
       instances := instances w |}
  end.

(** The store after [new m(options)]. *)
Definition allocate (m : Matcher) (options : MatcherOptions) (w : World) : World :=
  {| resolverState := resolverState w;
     instances := instances w ++ [newInstance m options] |}.

(** The memo does not let the pass reuse an instance for matcher [h]:
    there is no memo yet, or it was written for another matcher. *)
Definition memo_differs (this : MapMatcherImplementation) (h : option Matcher) : Prop :=
  match last this with
  | None => True
  | Some l => matcher l ≠ h
  end.

(** The ids a pass contributes itself: the id of the resolution it asked
    for, if it asked. *)
Definition own_ids (this : MapMatcherImplementation) (w : World) : list Z :=
  match child this with
  | Some this_child =>
    match resolution_of this this_child w with
    | Some resolution => [id resolution]
    | None => []
    end
  | None => []
  end.

(** The self-descriptive segment of a node. *)
Definition mapSegment_of (this : MapMatcherImplementation) : Segment :=
  createSegment "map" (request (this_env this)) (this_constructor this)
    (this_appendFinalSlash this).

(** The id of the node's resolution while it is pending, that is, while
    it carries no value. *)
Definition pending_ids (this : MapMatcherImplementation) (w : World) : list Z :=
  match child this with
  | Some this_child =>
    match resolution_of this this_child w with
    | Some resolution =>
      match value resolution with
      | None => [id resolution]
      | Some _ => []
      end
    | None => []
    end
  | None => []
  end.

(** A reading of the design notes on [resolutionIds]: every id a pass
    returns is the node's pending id or an id reported by a child result. *)
Definition ids_pending_or_reported (this : MapMatcherImplementation) (w : World) : Prop :=
  ∀ result this' w',
    execute this w = Some ((result, this'), w') →
    ∀ x, x ∈ resolutionIds result →
      x ∈ pending_ids this w ∨ ∃ s rs, x ∈ resolutionIds (getResult s rs).1.1.

(** A reading of the design notes on [resolutionIds]: the ids a pass
    returns are free of duplicates. *)
Definition ids_without_duplicates (this : MapMatcherImplementation) (w : World) : Prop :=
  ∀ result this' w',
    execute this w = Some ((result, this'), w') →
    NoDup (resolutionIds result).

(** ** The design's account of a pass

    What sections 4.3 and 4.4 of the design say a pass works with and
    returns, as functions of the node and the world the pass starts in; the
    theorems compare [execute] with them. *)

(** The child instance a pass asks for its result, in the state in which
    it is asked: the instance of the memo when the memo was written for the
    matcher of this pass, else an instance built from that matcher and the
    child's options, or none when the pass has no matcher. *)
Definition asked_instance (this : MapMatcherImplementation) (this_child : Child) (w : World)
    : option InstanceState :=
  let h := childMatcher_of this this_child w in
  let built := (λ m, newInstance m (matcherOptions this_child)) <$> h in
  match last this with
  | Some l =>
    if decide (matcher l = h)
    then matcherInstance l ≫= (λ i, instances w !! i)
    else built
  | None => built
  end.

(** The result of that child instance, asked with the resolver's memory as
    the node's own resolution left it. *)
Definition child_result (this : MapMatcherImplementation) (w : World) : option MatcherResult :=
  match child this with
  | Some this_child =>
    (λ s, (getResult s (resolverState (after_resolve this this_child w))).1.1)
      <$> asked_instance this this_child w
  | None => None
  end.

(** The resolution the pass obtained for the child, with the child. *)
Definition own_resolution (this : MapMatcherImplementation) (w : World)
    : option (Child * Resolution) :=
  match child this with
  | Some this_child => (λ resolution, (this_child, resolution)) <$> resolution_of this this_child w
  | None => None
  end.

(** The segments after the self segment: the child's segments if a child
    instance exists; else one not-ready segment if the pass obtained a
    resolution, with the error of that resolution; else one not-found segment
    if the remaining path is not empty; else nothing. *)
Definition continuation_of (this : MapMatcherImplementation) (w : World) : list Segment :=
  match child_result this w with
  | Some result => segments result
  | None =>
    match own_resolution this w with
    | Some (this_child, resolution) =>
      [createNotReadySegment (request (env (matcherOptions this_child))) (error resolution)
         (this_appendFinalSlash this)]
    | None =>
      if truthy (path (request (this_env this)))
      then [createNotFoundSegment (request (this_env this))]
      else []
    end
  end.

(** ** The builder's table and its warnings *)

(** [patterns.map(pattern => createMapping(pattern, paths[pattern]))], the
    table of [map] before it is sorted. *)
Definition created_mappings (paths : MapMatcherPaths) : list Mapping :=
  omap (λ pattern,
          match get_path paths pattern with
          | Some (Callable m) => Some (createMapping pattern m)
          | _ => None
          end) (fmap fst paths).

(** The order [compareStrings] puts on the entries of a table. *)
Definition key_le (x y : Mapping) : Prop := (compareStrings (key x) (key y) ≤ 0)%Z.

(** A table in ascending key order: an entry never compares greater than a
    later one. *)
Definition sorted_by_key (l : list Mapping) : Prop :=
  ∀ i j x y, i < j → l !! i = Some x → l !! j = Some y → key_le x y.

(** What the warning block of [map] (lines 205 to 251) needs beyond the
    collaborators: [key.replace(regExp, '')] and the static [type] of a
    matcher class. *)
Class Diagnostics := {
  replace_with_empty : string → RegExp → string;
  matcher_type : Matcher → string;
}.

Context `{!Diagnostics}.

(** [m.isMatcher && m.type === 'map'] *)
Definition is_map (m : MaybeResolvableMatcher) : bool :=
  match m with
  | IsMatcher c => String.eqb (matcher_type c) "map"
  | IsResolvable _ => false
  end.

Definition quote : string := String (Ascii.ascii_of_nat 34) EmptyString.

Definition overlap_warning (previousPattern pattern_ : Mapping) : string :=
  "map() received Maps for patterns " ++ quote ++ pattern previousPattern ++ quote ++
  " and " ++ quote ++ pattern pattern_ ++ quote ++
  ", but this may lead to multiple routes sharing the same URL.".

(** [for (let i = len - 2; i >= 0; i--)] of lines 211 to 238, started with
    [n = len - 1]: the warnings it writes, in order. *)
Fixpoint warnings_loop (mappings : list Mapping) (previousPattern : Mapping) (n : nat)
    : list string :=
  match n with
  | 0 => []
  | S i =>
    match mappings !! i with
    | Some pattern_ =>
      let replacedKey := replace_with_empty (key pattern_) (regExp previousPattern) in
      (if negb (String.eqb replacedKey (key pattern_)) && (0 <? String.length replacedKey)
       then
         if is_map (maybeResolvableMatcher previousPattern)
            || is_map (maybeResolvableMatcher pattern_)
         then [overlap_warning previousPattern pattern_]
         else []
       else [])
      ++ warnings_loop mappings pattern_ i
    | None => []
    end
  end.

(** The warnings [map] writes for a sorted table; [production] is
    [process.env.NODE_ENV === 'production'].  The second loop (lines 242 to
    250) warns about an entry without a value; the values of a table are
    functions, which are never falsy, so it adds nothing. *)
Definition map_warnings (production : bool) (mappings : list Mapping) : list string :=
  if production then []
  else
    let len := length mappings in
    if 2 <=? len then
      match mappings !! (len - 1) with
      | Some previousPattern => warnings_loop mappings previousPattern (len - 1)
      | None => []
      end
    else [].

End Model.

End MapMatcher.

(** * A small site

    Concrete collaborators on which the model runs: matcher classes and
    resolvable functions are numbers, the resolver's memory says how the one
    pending import has settled, a path test strips a literal prefix and a
    page instance counts how often it was asked for its result. *)
Module Demo.
Import MapMatcher.

Inductive Settled :=
| Pending
| Resolved (m : nat)
| Failed (e : string).

Inductive SiteSegment :=
| MapSegment (type url : string) (entries : nat) (slash : bool)
| NotFoundSegment (url : string)
| NotReadySegment (url : string) (err : option string) (slash : bool)
| PageSegment (page : nat) (url : string).

Record PageInstance := { page : nat; url : string; visits : nat }.

Definition req (p : string) : @Request unit := {| path := p; requestData := tt |}.

Definition envOf (p : string) : @Env unit unit := {| request := req p; envData := tt |}.

Definition stripPrefix (e : @Env unit unit) (m : @Mapping nat nat unit) (slash : bool)
    : option (@Env unit unit) :=
  let p := path (request e) in
  if String.prefix (pattern m) p
  then Some (envOf (String.substring (String.length (pattern m))
                      (String.length p - String.length (pattern m)) p))
  else None.

Definition settle (f : nat) (st : Settled) : @Resolution nat string :=
  {| id := Z.of_nat f;
     value := match st with Resolved m => Some m | _ => None end;
     error := match st with Failed e => Some e | _ => None end |}.

#[export] Instance site : @Collaborators unit unit nat nat unit Settled string unit
                            SiteSegment PageInstance := {|
  mappingAgainstPathname := stripPrefix;
  createMapping pattern m := {| pattern := pattern; key := pattern; regExp := tt;
                                maybeResolvableMatcher := m |};
  resolve _ _ f st := (settle f st, st);
  createSegment type r cls slash := MapSegment type (path r) (length (orderedMappings cls)) slash;
  createNotFoundSegment r := NotFoundSegment (path r);
  createNotReadySegment r err slash := NotReadySegment (path r) err slash;
  newInstance m options := {| page := m; url := path (request (env options)); visits := 0 |};
  getResult s st :=
    ({| resolutionIds := []; segments := [PageSegment (page s) (url s)] |},
     {| page := page s; url := url s; visits := S (visits s) |}, st);
|}.

Definition optionsAt (p : string) : @MatcherOptions unit unit unit :=
  {| env := envOf p; resolver := tt; appendFinalSlash := false |}.

Definition classOf (options : @MapOptions nat nat) : MapMatcherClass :=
  match map options with
  | inr cls => cls
  | inl _ => {| paths := []; orderedMappings := []; patterns := [] |}
  end.

(** [map({ '/about': About, '/': Home, '/lazy': () => import(...) })] *)
Definition pages : MapMatcherClass :=
  classOf (PathsOption [("/about", Callable (IsMatcher 1));
                        ("/", Callable (IsMatcher 0));
                        ("/lazy", Callable (IsResolvable 7))]).

(** [map(() => import(...))] *)
Definition lazyRoot : MapMatcherClass := classOf (FunctionOption (IsResolvable 7)).

(** [map({})] *)
Definition emptyMap : MapMatcherClass := classOf (PathsOption []).

(** [{ '/a': undefined, '/b': B, '/c': 3 }] *)
Definition brokenPaths : list (string * @PathValue nat nat) :=
  [("/a", NotCallable); ("/b", Callable (IsMatcher 1)); ("/c", NotCallable)].

Definition world (st : Settled) (store : list PageInstance) : World :=
  {| resolverState := st; instances := store |}.

(** A node of [pages] asked for [/about/team]. *)
Definition aboutNode : MapMatcherImplementation :=
  (constructor pages (optionsAt "/about/team")).1.

(** A node of [pages] asked for a path that no pattern is a prefix of. *)
Definition lostNode : MapMatcherImplementation :=
  (constructor pages (optionsAt "nowhere")).1.

(** A node of [lazyRoot] asked for [/lazy], before its first pass. *)
Definition lazyNode : MapMatcherImplementation :=
  (constructor lazyRoot (optionsAt "/lazy")).1.

Definition lazyChild : @Child unit unit nat nat unit unit :=
  {| mapping := {| pattern := "/"; key := "/"; regExp := tt;
                   maybeResolvableMatcher := IsResolvable 7 |};
     matcherOptions := optionsAt "/lazy";
     child_maybeResolvableMatcher := IsResolvable 7 |}.

(** [lazyNode] after a pass in which the import had resolved to page 3, and
    the store that pass left. *)
Definition visitedNode : MapMatcherImplementation :=
  set_last lazyNode {| matcherInstance := Some 0; matcher := Some 3 |}.

Definition visitedStore : list PageInstance :=
  [{| page := 3; url := "/lazy"; visits := 1 |}].

(** The site's matcher classes are pages, but for number 9, which is a map;
    removing a match from a key is modelled by dropping the key's first
    character. *)
#[export] Instance siteDiagnostics : @Diagnostics nat unit := {|
  replace_with_empty k _ := String.substring 1 (String.length k - 1) k;
  matcher_type m := if Nat.eqb m 9 then "map" else "page";
|}.

Definition rootMapping : @Mapping nat nat unit :=
  {| pattern := "/"; key := "/"; regExp := tt; maybeResolvableMatcher := IsMatcher 0 |}.

Definition aboutMapping : @Mapping nat nat unit :=
  {| pattern := "/about"; key := "/about"; regExp := tt;
     maybeResolvableMatcher := IsMatcher 1 |}.

Definition aboutChild : @Child unit unit nat nat unit unit :=
  {| mapping := aboutMapping;
     matcherOptions := optionsAt "/team";
     child_maybeResolvableMatcher := IsMatcher 1 |}.

(** [map({ '/about': About })] *)
Definition aboutOnly : MapMatcherClass :=
  classOf (PathsOption [("/about", Callable (IsMatcher 1))]).

End Demo.

(** * The small site with a talkative resolver and child

    The same site, but the resolver answers with whatever resolution its
    memory holds (so a resolution may carry a value and an error at once),
    and a page reports the id of the resolution it depends on, which is its
    own number.  A page numbered like the node's own resolution is a child
    that asks the resolver about the same reference in the same environment,
    as the child of a root-only node may. *)
Module Replay.
Import MapMatcher Demo.

Definition replay : @Collaborators unit unit nat nat unit (@Resolution nat string) string unit
                      SiteSegment PageInstance := {|
  mappingAgainstPathname := stripPrefix;
  createMapping pattern m := {| pattern := pattern; key := pattern; regExp := tt;
                                maybeResolvableMatcher := m |};
  resolve _ _ _ held := (held, held);
  createSegment type r cls slash := MapSegment type (path r) (length (orderedMappings cls)) slash;
  createNotFoundSegment r := NotFoundSegment (path r);
  createNotReadySegment r err slash := NotReadySegment (path r) err slash;
  newInstance m options := {| page := m; url := path (request (env options)); visits := 0 |};
  getResult s held :=
    ({| resolutionIds := [Z.of_nat (page s)]; segments := [PageSegment (page s) (url s)] |},
     {| page := page s; url := url s; visits := S (visits s) |}, held);
|}.

(** The world in which the resolver holds [held]. *)
Definition holding (held : @Resolution nat string) (store : list PageInstance)
    : @World (@Resolution nat string) PageInstance :=
  {| resolverState := held; instances := store |}.

(** A resolution that has a value and still carries the error of an
    earlier attempt. *)
Definition staleError : @Resolution nat string :=
  {| id := 7; value := Some 3; error := Some "offline" |}.

(** A resolution whose value is the page that reports the resolution's own
    id. *)
Definition sameId : @Resolution nat string :=
  {| id := 3; value := Some 3; error := None |}.

End Replay.

(** * Properties *)
Module MapMatcherSpec.
Import MapMatcher.

Section Properties.

Context {RequestData EnvData Matcher Resolvable Resolver ResolverState : Type}.
Context {Error RegExp Segment InstanceState : Type}.
Context `{EqDecision Matcher}.
Context `{!@Collaborators RequestData EnvData Matcher Resolvable Resolver ResolverState
             Error RegExp Segment InstanceState}.

(** ** The constructor's loop *)

Lemma constructor_loop_spec e r f (mappings : list Mapping) n :
  n ≤ length mappings →
  ∃ c tested, constructor_loop e r f mappings n = (c, tested) ∧
    ((∃ k mapping childEnv,
        k < n ∧ mappings !! k = Some mapping ∧
        mappingAgainstPathname e mapping f = Some childEnv ∧
        (∀ j m, k < j < n → mappings !! j = Some m → mappingAgainstPathname e m f = None) ∧
        c = Some (childOf mapping childEnv r f) ∧
        tested = reverse (take (n - k) (drop k mappings)))
     ∨ ((∀ j m, j < n → mappings !! j = Some m → mappingAgainstPathname e m f = None) ∧
        c = None ∧ tested = reverse (take n mappings))).
Proof.
  induction n as [|i IH]; intros Hn.
  - eexists _, _. split; [reflexivity|]. right.
    split_and!; [intros; lia | done | by rewrite take_0].
  - destruct (lookup_lt_is_Some_2 mappings i) as [mapping Hi]; [lia|].
    simpl. rewrite Hi.
    destruct (mappingAgainstPathname e mapping f) as [childEnv|] eqn:Htest.
    + eexists _, _. split; [reflexivity|]. left. exists i, mapping, childEnv.
      split_and!; try done; try (intros; lia).
      replace (S i - i) with 1 by lia.
      erewrite drop_S by exact Hi. done.
    + destruct IH as (c & tested & Hloop & Hspec); [lia|]. rewrite Hloop.
      eexists _, _. split; [reflexivity|].
      destruct Hspec as [(k & m & ce & Hk & Hm & Hok & Hfail & -> & ->)|(Hfail & -> & ->)].
      * left. exists k, m, ce. split_and!; try done; try lia.
        -- intros j m' Hj Hm'. destruct (decide (j = i)) as [->|]; [congruence|].
           eapply Hfail; [|done]. lia.
        -- replace (S i - k) with (S (i - k)) by lia.
           erewrite (take_S_r _ (i - k) mapping).
           ++ by rewrite reverse_snoc.
           ++ rewrite lookup_drop. by replace (k + (i - k)) with i by lia.
      * right. split_and!; [|done|].
        -- intros j m' Hj Hm'. destruct (decide (j = i)) as [->|]; [congruence|].
           eapply Hfail; [|done]. lia.
        -- erewrite (take_S_r _ i mapping) by done. by rewrite reverse_snoc.
Qed.

(** ** Evaluation passes *)

(** Runs a pass symbolically: one case per path through [execute]. *)
Ltac run_pass :=
  unfold execute, bind, ret, throw, call_resolve, call_new, call_getResult in *;
  repeat (simplify_eq/=;
          match goal with
          | |- context [match ?x with _ => _ end] => destruct x eqn:?
          | H : context [match ?x with _ => _ end] |- _ => destruct x eqn:?
          end);
  simplify_eq/=.

(** A pass only ever writes the [last] field of the object. *)
Lemma execute_frame this w result this' w' :
  execute this w = Some ((result, this'), w') →
  child this' = child this ∧ this_env this' = this_env this ∧
  this_resolver this' = this_resolver this ∧
  this_appendFinalSlash this' = this_appendFinalSlash this ∧
  this_constructor this' = this_constructor this.
Proof. intros Hrun. run_pass; done. Qed.

Lemma lifetime_frame this this' :
  lifetime this this' →
  child this' = child this ∧ this_env this' = this_env this ∧
  this_resolver this' = this_resolver this ∧
  this_appendFinalSlash this' = this_appendFinalSlash this ∧
  this_constructor this' = this_constructor this.
Proof.
  induction 1 as [|this1 this2 w w' result _ IH Hrun]; [done|].
  apply execute_frame in Hrun. destruct_and!. split_and!; congruence.
Qed.


Lemma truthy_nonempty (s : string) : truthy s = true ↔ s ≠ "".
Proof.
  unfold truthy. destruct (String.eqb_spec s ""); simpl; split; congruence.
Qed.

Lemma constructor_memo_ok cls options (w : @World ResolverState InstanceState) :
  memo_ok (constructor cls options).1 w.
Proof.
  unfold constructor, memo_ok.
  repeat (case_match; simplify_eq/=); done.
Qed.

(** A pass on a node without a selected child. *)
Lemma execute_unselected this w :
  child this = None →
  execute this w =
    Some (({| resolutionIds := [];
              segments := mapSegment_of this ::
                (if truthy (path (request (this_env this)))
                 then [createNotFoundSegment (request (this_env this))] else []) |},
           this), w).
Proof.
  intros Hchild. unfold execute, bind, ret, truthy, mapSegment_of.
  rewrite Hchild. simpl. by destruct (String.eqb _ _).
Qed.

(** A pass on a node with a selected child: which instance it works with,
    and what it returns. *)
Lemma execute_selected this this_child w :
  child this = Some this_child →
  memo_ok this w →
  let h := childMatcher_of this this_child w in
  let w1 := after_resolve this this_child w in
  ∃ inst w2 result w',
    execute this w =
      Some ((result, set_last this {| matcherInstance := inst; matcher := h |}), w') ∧
    ((∃ l, last this = Some l ∧ matcher l = h ∧ inst = matcherInstance l ∧ w2 = w1) ∨
     (∃ m, memo_differs this h ∧ h = Some m ∧ inst = Some (length (instances w1)) ∧
           w2 = allocate m (matcherOptions this_child) w1) ∨
     (memo_differs this h ∧ h = None ∧ inst = None ∧ w2 = w1)) ∧
    match inst with
    | Some i =>
      ∃ s, instances w2 !! i = Some s ∧
        let out := getResult s (resolverState w2) in
        result = {| resolutionIds := own_ids this w ++ resolutionIds out.1.1;
                    segments := mapSegment_of this :: segments out.1.1 |} ∧
        w' = {| resolverState := out.2; instances := <[i := out.1.2]> (instances w2) |}
    | None =>
      ∃ resolution, resolution_of this this_child w = Some resolution ∧ h = None ∧
        result = {| resolutionIds := own_ids this w;
                    segments := [mapSegment_of this;
                                 createNotReadySegment
                                   (request (env (matcherOptions this_child)))
                                   (error resolution) (this_appendFinalSlash this)] |} ∧
        w' = w2
    end.
Proof.
  intros Hchild Hmemo. unfold memo_ok in Hmemo.
  unfold childMatcher_of, after_resolve, own_ids, resolution_of, memo_differs, allocate.
  rewrite Hchild.
  unfold execute, bind, ret, throw, call_resolve, call_new, call_getResult.
  rewrite Hchild.
  destruct (child_maybeResolvableMatcher this_child) as [m|f] eqn:Hmrm; simpl.
  - (* the child is a matcher *)
    destruct (last this) as [l|] eqn:Hlast; simpl;
      [destruct (decide (matcher l = Some m)) as [Heq|Hne]; simpl|].
    + destruct Hmemo as [Hiff Hstore].
      destruct (matcherInstance l) as [i|] eqn:Hinst;
        [|destruct Hiff as [_ Hiff]; rewrite Hiff in Heq; done].
      destruct (lookup_lt_is_Some_2 (instances w) i) as [s Hs]; [by apply Hstore|].
      rewrite Hs. destruct (getResult s (resolverState w)) as [[out s'] rs] eqn:Hout.
      eexists (Some i), w, _, _. split; [reflexivity|]. split.
      * left. by exists l.
      * exists s. rewrite Hout. done.
    + pose proof (list_lookup_middle (instances w) []
        (newInstance m (matcherOptions this_child)) _ eq_refl) as Hs.
      rewrite Hs.
      destruct (getResult (newInstance m (matcherOptions this_child)) (resolverState w))
        as [[out s'] rs] eqn:Hout.
      eexists (Some _), _, _, _. split; [reflexivity|]. split.
      * right; left. by exists m.
      * eexists. split; [exact Hs|]. simpl. rewrite Hout. done.
    + pose proof (list_lookup_middle (instances w) []
        (newInstance m (matcherOptions this_child)) _ eq_refl) as Hs.
      rewrite Hs.
      destruct (getResult (newInstance m (matcherOptions this_child)) (resolverState w))
        as [[out s'] rs] eqn:Hout.
      eexists (Some _), _, _, _. split; [reflexivity|]. split.
      * right; left. by exists m.
      * eexists. split; [exact Hs|]. simpl. rewrite Hout. done.
  - (* the child has to be resolved *)
    destruct (resolve (this_resolver this) (env (matcherOptions this_child)) f
                (resolverState w)) as [resolution rs1] eqn:Hres; simpl.
    destruct (value resolution) as [m|] eqn:Hvalue.
    + destruct (last this) as [l|] eqn:Hlast; simpl;
        [destruct (decide (matcher l = Some m)) as [Heq|Hne]; simpl|].
      * destruct Hmemo as [Hiff Hstore].
        destruct (matcherInstance l) as [i|] eqn:Hinst;
          [|destruct Hiff as [_ Hiff]; rewrite Hiff in Heq; done].
        destruct (lookup_lt_is_Some_2 (instances w) i) as [s Hs]; [by apply Hstore|].
        simpl. rewrite Hs. destruct (getResult s rs1) as [[out s'] rs] eqn:Hout.
        eexists (Some i), _, _, _. split; [reflexivity|]. split.
        -- left. by exists l.
        -- exists s. split; [exact Hs|]. simpl. rewrite Hout. done.
      * pose proof (list_lookup_middle (instances w) []
          (newInstance m (matcherOptions this_child)) _ eq_refl) as Hs.
        rewrite Hs.
        destruct (getResult (newInstance m (matcherOptions this_child)) rs1)
          as [[out s'] rs] eqn:Hout.
        eexists (Some _), _, _, _. split; [reflexivity|]. split.
        -- right; left. by exists m.
        -- eexists. split; [exact Hs|]. simpl. rewrite Hout. done.
      * pose proof (list_lookup_middle (instances w) []
          (newInstance m (matcherOptions this_child)) _ eq_refl) as Hs.
        rewrite Hs.
        destruct (getResult (newInstance m (matcherOptions this_child)) rs1)
          as [[out s'] rs] eqn:Hout.
        eexists (Some _), _, _, _. split; [reflexivity|]. split.
        -- right; left. by exists m.
        -- eexists. split; [exact Hs|]. simpl. rewrite Hout. done.
    + destruct (last this) as [l|] eqn:Hlast; simpl;
        [destruct (decide (matcher l = None)) as [Heq|Hne]; simpl|].
      * destruct Hmemo as [[Hnone _] _]. rewrite (Hnone Heq). simpl.
        rewrite Hchild.
        eexists None, _, _, _. split; [reflexivity|]. split.
        -- left. exists l. by rewrite (Hnone Heq).
        -- by exists resolution.
      * rewrite Hchild.
        eexists None, _, _, _. split; [reflexivity|]. split.
        -- by right; right.
        -- by exists resolution.
      * rewrite Hchild.
        eexists None, _, _, _. split; [reflexivity|]. split.
        -- by right; right.
        -- by exists resolution.
Qed.

Lemma after_resolve_instances this this_child (w : World) :
  instances (after_resolve this this_child w) = instances w.
Proof. unfold after_resolve. by destruct (child_maybeResolvableMatcher this_child). Qed.

Lemma execute_memo_ok this w :
  memo_ok this w →
  ∃ result this' w',
    execute this w = Some ((result, this'), w') ∧ memo_ok this' w' ∧
    length (instances w) ≤ length (instances w').
Proof.
  intros Hmemo. destruct (child this) as [this_child|] eqn:Hchild.
  - destruct (execute_selected this this_child w Hchild Hmemo)
      as (inst & w2 & result & w' & Hrun & Hinst & Hout).
    eexists _, _, _. split; [exact Hrun|].
    assert (length (instances w) ≤ length (instances w2) ∧
            (∀ i, inst = Some i → i < length (instances w2)) ∧
            (childMatcher_of this this_child w = None ↔ inst = None)) as (Hle & Hin & Hiff).
    { unfold memo_ok in Hmemo.
      destruct Hinst as [(l & Hl & Hm & -> & ->)|[(m & _ & Hh & -> & ->)|(_ & Hh & -> & ->)]].
      - rewrite Hl in Hmemo. destruct Hmemo as [Hiff Hstore]. rewrite <-Hm.
        rewrite after_resolve_instances. done.
      - unfold allocate. simpl. rewrite Hh, length_app, after_resolve_instances. simpl.
        split_and!; [lia| |done]. intros i [= <-]. lia.
      - rewrite Hh, after_resolve_instances. done. }
    assert (length (instances w') = length (instances w2)) as Hlen.
    { destruct inst as [i|].
      - destruct Hout as (s & _ & _ & ->). simpl. by rewrite length_insert.
      - by destruct Hout as (resolution & _ & _ & _ & ->). }
    split; [|lia]. unfold memo_ok. simpl. split; [done|].
    intros i Hi. rewrite Hlen. by apply Hin.
  - rewrite (execute_unselected this w Hchild). eexists _, _, _.
    split; [reflexivity|]. split; [done|lia].
Qed.

Lemma history_memo_ok this w : history this w → memo_ok this w.
Proof.
  induction 1 as [cls options w|this w result this' w' _ IH Hrun|this w rs more _ IH].
  - apply constructor_memo_ok.
  - destruct (execute_memo_ok this w IH) as (? & ? & ? & Hrun' & Hok & _).
    rewrite Hrun in Hrun'. by simplify_eq.
  - unfold memo_ok in *. destruct (last this) as [l|]; [|done].
    destruct IH as [Hiff Hstore]. split; [done|].
    intros i Hi. specialize (Hstore i Hi). simpl. rewrite length_app. lia.
Qed.

(** The instance a pass on a selected child works with is the one the
    design's account names, in the state the account gives. *)
Lemma execute_selected_asked this this_child w :
  child this = Some this_child →
  memo_ok this w →
  let h := childMatcher_of this this_child w in
  let rs := resolverState (after_resolve this this_child w) in
  ∃ inst result w',
    execute this w =
      Some ((result, set_last this {| matcherInstance := inst; matcher := h |}), w') ∧
    match inst with
    | Some i =>
      ∃ s, asked_instance this this_child w = Some s ∧
        result = {| resolutionIds := own_ids this w ++ resolutionIds (getResult s rs).1.1;
                    segments := mapSegment_of this :: segments (getResult s rs).1.1 |} ∧
        resolverState w' = (getResult s rs).2 ∧
        instances w' !! i = Some (getResult s rs).1.2 ∧
        ((∃ l, last this = Some l ∧ matcher l = h ∧ matcherInstance l = Some i ∧
               instances w !! i = Some s ∧
               instances w' = <[i := (getResult s rs).1.2]> (instances w)) ∨
         (∃ m, memo_differs this h ∧ h = Some m ∧ i = length (instances w) ∧
               s = newInstance m (matcherOptions this_child) ∧
               instances w' = (instances w ++ [(getResult s rs).1.2])%list))
    | None =>
      ∃ resolution, resolution_of this this_child w = Some resolution ∧ h = None ∧
        asked_instance this this_child w = None ∧
        result = {| resolutionIds := own_ids this w;
                    segments := [mapSegment_of this;
                                 createNotReadySegment
                                   (request (env (matcherOptions this_child)))
                                   (error resolution) (this_appendFinalSlash this)] |} ∧
        w' = after_resolve this this_child w
    end.
Proof.
  intros Hchild Hmemo h rs.
  destruct (execute_selected this this_child w Hchild Hmemo)
    as (inst & w2 & result & w' & Hrun & Hinst & Hout).
  fold h in Hrun, Hinst, Hout.
  exists inst, result, w'. split; [exact Hrun|].
  unfold memo_ok, memo_differs, asked_instance in *. fold h.
  destruct Hinst as [(l & Hl & Hm & -> & ->)|[(m & Hdiff & Hh & -> & ->)|(Hdiff & Hh & -> & ->)]].
  - rewrite Hl in *. rewrite decide_True by done.
    destruct (matcherInstance l) as [i|] eqn:Hi.
    + destruct Hout as (s & Hs & -> & ->). rewrite after_resolve_instances in *. fold rs.
      simpl. exists s. split_and!; [done..| |].
      * apply list_lookup_insert_eq. by eapply lookup_lt_Some.
      * left. by exists l.
    + destruct Hout as (resolution & Hres & Hnone & -> & ->).
      exists resolution. done.
  - destruct Hout as (s & Hs & -> & ->).
    unfold allocate in *. simpl in *. rewrite after_resolve_instances in *.
    rewrite (list_lookup_middle _ [] _ _ eq_refl) in Hs. injection Hs as <-.
    fold rs. eexists. split_and!.
    + rewrite Hh. simpl. destruct (last this) as [l|]; [|done].
      by rewrite decide_False by congruence.
    + done.
    + done.
    + rewrite insert_app_r_alt by lia. rewrite Nat.sub_diag. simpl.
      by apply list_lookup_middle.
    + right. exists m. split_and!; try done.
      rewrite insert_app_r_alt by lia. by rewrite Nat.sub_diag.
  - destruct Hout as (resolution & Hres & _ & -> & ->).
    exists resolution. split_and!; try done.
    rewrite Hh. simpl. destruct (last this) as [l|]; [|done].
    by rewrite decide_False by congruence.
Qed.

(** What a pass returns, against the design's account. *)
Lemma execute_account this w :
  memo_ok this w →
  ∃ result this' w',
    execute this w = Some ((result, this'), w') ∧
    resolutionIds result =
      (own_ids this w ++ from_option resolutionIds [] (child_result this w))%list ∧
    segments result = mapSegment_of this :: continuation_of this w.
Proof.
  intros Hmemo. unfold continuation_of, child_result, own_resolution.
  destruct (child this) as [this_child|] eqn:Hchild.
  - destruct (execute_selected_asked this this_child w Hchild Hmemo)
      as (inst & result & w' & Hrun & Hout).
    eexists _, _, _. split; [exact Hrun|].
    destruct inst as [i|].
    + destruct Hout as (s & -> & -> & _). done.
    + destruct Hout as (resolution & -> & _ & -> & -> & _). simpl.
      by rewrite app_nil_r.
  - rewrite (execute_unselected this w Hchild). eexists _, _, _.
    split; [reflexivity|]. simpl. unfold own_ids. by rewrite Hchild.
Qed.

(** ** Path selection *)

(** C1. For a mapping table with two or more entries the constructor runs
    the path test on the entries from the end of the table towards its
    start, against the node's own environment, and stops at the first entry
    whose test succeeds: that entry becomes the child, with the narrowed
    environment the test returned, and the entries tested are exactly those
    from the end down to it.  When every test fails all entries were tested
    and no child is selected.  No evaluation pass changes the selection. *)
Theorem selection_general_case cls options :
  2 ≤ length (orderedMappings cls) →
  ∃ this tested,
    constructor cls options = (this, tested) ∧
    ((∃ k mapping childEnv,
        orderedMappings cls !! k = Some mapping ∧
        mappingAgainstPathname (env options) mapping (appendFinalSlash options)
          = Some childEnv ∧
        (∀ j m, k < j → orderedMappings cls !! j = Some m →
           mappingAgainstPathname (env options) m (appendFinalSlash options) = None) ∧
        child this =
          Some {| mapping := mapping;
                  matcherOptions := {| env := childEnv;
                                       resolver := resolver options;
                                       appendFinalSlash := appendFinalSlash options |};
                  child_maybeResolvableMatcher := maybeResolvableMatcher mapping |} ∧
        tested = reverse (drop k (orderedMappings cls)))
     ∨ ((∀ j m, orderedMappings cls !! j = Some m →
           mappingAgainstPathname (env options) m (appendFinalSlash options) = None) ∧
        child this = None ∧
        tested = reverse (orderedMappings cls))) ∧
    ∀ this', lifetime this this' → child this' = child this.
Proof.
  intros Hlen.
  destruct (constructor_loop_spec (env options) (resolver options)
              (appendFinalSlash options) (orderedMappings cls)
              (length (orderedMappings cls)) (le_n _))
    as (c & tested & Hloop & Hspec).
  assert (constructor cls options =
          ({| this_env := env options; this_resolver := resolver options;
              this_appendFinalSlash := appendFinalSlash options;
              this_constructor := cls; child := c; last := None |}, tested)) as ->.
  { unfold constructor. destruct (orderedMappings cls) as [|m0 [|m1 rest]] eqn:Hm;
      simpl in Hlen; [lia|lia|]. by rewrite Hloop. }
  eexists _, _. split; [reflexivity|]. split.
  - destruct Hspec as [(k & m & ce & Hk & Hm & Hok & Hfail & -> & ->)|(Hfail & -> & ->)].
    + left. exists k, m, ce. split_and!; try done.
      * intros j m' Hj Hm'. eapply Hfail; [|done].
        split; [done|]. by eapply lookup_lt_Some.
      * by rewrite take_ge by (rewrite length_drop; lia).
    + right. split_and!; try done.
      * intros j m Hm. eapply Hfail; [|done]. by eapply lookup_lt_Some.
      * by rewrite take_ge.
  - intros this' Hlife. by apply lifetime_frame in Hlife as [? _].
Qed.

(** C6. For a mapping table whose only entry has the root pattern the
    constructor selects that entry without running any path test; the
    child's options are the node's own environment, resolver and
    trailing-slash flag. *)
Theorem selection_root_only cls options mapping0 :
  orderedMappings cls = [mapping0] →
  pattern mapping0 = "/" →
  ∃ this,
    constructor cls options = (this, []) ∧
    child this =
      Some {| mapping := mapping0;
              matcherOptions := {| env := env options;
                                   resolver := resolver options;
                                   appendFinalSlash := appendFinalSlash options |};
              child_maybeResolvableMatcher := maybeResolvableMatcher mapping0 |}.
Proof.
  intros Htable Hroot. unfold constructor. rewrite Htable, Hroot. simpl.
  eexists. split; reflexivity.
Qed.

(** ** Result composition *)

(** C5. A pass on a node for which no entry was selected returns, when
    the remaining path of the node's environment is not empty, the self
    segment followed by the not-found segment of the node's own request,
    and the self segment alone when the remaining path is empty. *)
Theorem unselected_pass this w :
  child this = None →
  ∃ result,
    execute this w = Some ((result, this), w) ∧
    (path (request (this_env this)) ≠ "" →
       segments result =
         [mapSegment_of this; createNotFoundSegment (request (this_env this))]) ∧
    (path (request (this_env this)) = "" →
       segments result = [mapSegment_of this]).
Proof.
  intros Hchild. eexists. split; [by apply execute_unselected|]. simpl.
  split; intros Hpath.
  - apply truthy_nonempty in Hpath. by rewrite Hpath.
  - by rewrite Hpath.
Qed.

(** C7. Every pass returns a segment sequence that starts with the "map"
    segment of the node, built from the request of the node's own
    environment (not the child's), the node's class and the trailing-slash
    flag, and goes on with the continuation of the pass: the segments of the
    child instance the pass asked, or the not-ready segment of the pass's own
    resolution, or the not-found segment, or nothing. *)
Theorem self_segment_first this w :
  memo_ok this w →
  ∃ result this' w',
    execute this w = Some ((result, this'), w') ∧
    segments result =
      createSegment "map" (request (this_env this)) (this_constructor this)
        (this_appendFinalSlash this) :: continuation_of this w.
Proof.
  intros Hmemo.
  destruct (execute_account this w Hmemo) as (result & this' & w' & Hrun & _ & Hsegments).
  by exists result, this', w'.
Qed.

(** C4. A pass in which the resolver returns neither a value nor an
    error for the selected reference returns exactly the self segment
    followed by the not-ready segment; that segment is built from the
    request of the child environment and the trailing-slash flag and
    carries no error. *)
Theorem pending_resolution this this_child f w :
  memo_ok this w →
  child this = Some this_child →
  child_maybeResolvableMatcher this_child = IsResolvable f →
  let resolution :=
    (resolve (this_resolver this) (env (matcherOptions this_child)) f (resolverState w)).1 in
  value resolution = None →
  error resolution = None →
  ∃ result this' w',
    execute this w = Some ((result, this'), w') ∧
    segments result =
      [mapSegment_of this;
       createNotReadySegment (request (env (matcherOptions this_child))) None
         (this_appendFinalSlash this)].
Proof.
  intros Hmemo Hchild Hmrm resolution Hvalue Herror. subst resolution.
  destruct (execute_selected this this_child w Hchild Hmemo)
    as (inst & w2 & result & w' & Hrun & Hinst & Hout).
  assert (childMatcher_of this this_child w = None) as Hh.
  { unfold childMatcher_of. by rewrite Hmrm. }
  assert (inst = None) as ->.
  { destruct Hinst as [(l & Hl & Hm & -> & _)|[(m & _ & Hm & _)|(_ & _ & -> & _)]];
      [|congruence|done].
    unfold memo_ok in Hmemo. rewrite Hl in Hmemo. apply Hmemo. congruence. }
  destruct Hout as (resolution' & Hres & _ & -> & _).
  unfold resolution_of in Hres. rewrite Hmrm in Hres. simplify_eq.
  eexists _, _, _. split; [exact Hrun|]. simpl. by rewrite Herror.
Qed.

(** C8. When the resolver reports an error and no value for the selected
    reference the pass still returns: the error sits in the not-ready
    segment that follows the self segment, and the memo the pass leaves
    records neither a matcher nor an instance.  A later pass in which the
    resolver returns a matcher builds a new child and returns the self
    segment followed by that child's segments, whatever the error was. *)
Theorem resolution_error_is_data this this_child f w e :
  memo_ok this w →
  child this = Some this_child →
  child_maybeResolvableMatcher this_child = IsResolvable f →
  let resolution :=
    (resolve (this_resolver this) (env (matcherOptions this_child)) f (resolverState w)).1 in
  value resolution = None →
  error resolution = Some e →
  ∃ result w',
    execute this w =
      Some ((result, set_last this {| matcherInstance := None; matcher := None |}), w') ∧
    segments result =
      [mapSegment_of this;
       createNotReadySegment (request (env (matcherOptions this_child))) (Some e)
         (this_appendFinalSlash this)] ∧
    ∀ (later : World) m,
      let resolved :=
        resolve (this_resolver this) (env (matcherOptions this_child)) f
          (resolverState later) in
      value resolved.1 = Some m →
      ∃ result2 this2 w2,
        execute (set_last this {| matcherInstance := None; matcher := None |}) later
          = Some ((result2, this2), w2) ∧
        segments result2 =
          mapSegment_of this ::
          segments (getResult (newInstance m (matcherOptions this_child)) resolved.2).1.1.
Proof.
  intros Hmemo Hchild Hmrm resolution Hvalue Herror. subst resolution.
  destruct (execute_selected this this_child w Hchild Hmemo)
    as (inst & w2 & result & w' & Hrun & Hinst & Hout).
  assert (childMatcher_of this this_child w = None) as Hh.
  { unfold childMatcher_of. by rewrite Hmrm. }
  assert (inst = None) as ->.
  { destruct Hinst as [(l & Hl & Hm & -> & _)|[(m & _ & Hm & _)|(_ & _ & -> & _)]];
      [|congruence|done].
    unfold memo_ok in Hmemo. rewrite Hl in Hmemo. apply Hmemo. congruence. }
  destruct Hout as (resolution' & Hres & _ & -> & _).
  unfold resolution_of in Hres. rewrite Hmrm in Hres. simplify_eq.
  rewrite Hh in Hrun.
  eexists _, _. split; [exact Hrun|]. split; [simpl; by rewrite Herror|].
  intros later m resolved Hm.
  set (this1 := set_last this {| matcherInstance := None; matcher := None |}).
  assert (memo_ok this1 later) as Hmemo1.
  { unfold memo_ok. simpl. split; [done|]. intros i [=]. }
  destruct (execute_selected this1 this_child later Hchild Hmemo1)
    as (inst & w3 & result2 & w4 & Hrun2 & Hinst2 & Hout2).
  assert (childMatcher_of this1 this_child later = Some m) as Hh1.
  { unfold childMatcher_of. by rewrite Hmrm. }
  rewrite Hh1 in *.
  destruct Hinst2 as [(l & [= <-] & [=] & _)|[(m' & _ & [= <-] & -> & ->)|(_ & [=] & _)]].
  destruct Hout2 as (s & Hs & -> & _).
  eexists _, _, _. split; [exact Hrun2|]. simpl.
  unfold allocate in Hs. simpl in Hs.
  rewrite (list_lookup_middle _ [] _ _ eq_refl) in Hs. simplify_eq.
  unfold after_resolve. by rewrite Hmrm.
Qed.

(** C10. [map] accepts a paths object without patterns and returns a
    class with an empty mapping table.  A node of that class has no child,
    runs no path test, and never gets a child; each of its passes, when the
    remaining path is not empty, returns exactly the self segment followed by
    the not-found segment. *)
Theorem empty_paths_object :
  ∃ cls,
    map (PathsOption []) = inr cls ∧
    orderedMappings cls = [] ∧
    ∀ options, ∃ this,
      constructor cls options = (this, []) ∧
      child this = None ∧
      ∀ this', lifetime this this' →
        child this' = None ∧
        ∀ w : World, path (request (env options)) ≠ "" →
          ∃ result,
            execute this' w = Some ((result, this'), w) ∧
            segments result =
              [mapSegment_of this; createNotFoundSegment (request (env options))].
Proof.
  eexists. split; [reflexivity|]. split; [reflexivity|].
  intros options. eexists. split; [reflexivity|]. split; [reflexivity|].
  intros this' Hlife. apply lifetime_frame in Hlife as (Hchild & Henv & _ & Hslash & Hcls).
  simpl in *. split; [done|]. intros w Hpath.
  eexists. split; [by apply execute_unselected|]. simpl.
  unfold mapSegment_of. rewrite Henv, Hslash, Hcls. simpl.
  apply truthy_nonempty in Hpath. by rewrite Hpath.
Qed.

(** ** Instance reuse *)


(** ** Resolution ids *)

(** C3, as the code has it.  The ids a pass returns are the node's own
    resolution id followed by the ids of the result of the child instance the
    pass asked, in that order.  The own id is there whenever the selected
    child is a reference that the pass hands to the resolver, pending or
    settled; a child that is a matcher already, or no child, contributes
    none.  The returned list is free of duplicates exactly when the child's
    ids are and do not contain the own id. *)
Theorem resolution_ids this w :
  memo_ok this w →
  ∃ result this' w',
    execute this w = Some ((result, this'), w') ∧
    resolutionIds result =
      (own_ids this w ++ from_option resolutionIds [] (child_result this w))%list ∧
    (∀ this_child f,
       child this = Some this_child →
       child_maybeResolvableMatcher this_child = IsResolvable f →
       own_ids this w =
         [id (resolve (this_resolver this) (env (matcherOptions this_child)) f
                (resolverState w)).1]) ∧
    (∀ this_child m,
       child this = Some this_child →
       child_maybeResolvableMatcher this_child = IsMatcher m →
       own_ids this w = []) ∧
    (child this = None → resolutionIds result = []) ∧
    (NoDup (resolutionIds result) ↔
       NoDup (from_option resolutionIds [] (child_result this w)) ∧
       ∀ x, x ∈ own_ids this w → x ∉ from_option resolutionIds [] (child_result this w)).
Proof.
  intros Hmemo.
  assert (NoDup (own_ids this w)) as Hown.
  { unfold own_ids. repeat case_match; try apply NoDup_nil_2. apply NoDup_singleton. }
  destruct (execute_account this w Hmemo) as (result & this' & w' & Hrun & Hids & _).
  exists result, this', w'. split_and!; try done.
  - intros this_child f Hchild Hmrm. unfold own_ids, resolution_of.
    by rewrite Hchild, Hmrm.
  - intros this_child m Hchild Hmrm. unfold own_ids, resolution_of.
    by rewrite Hchild, Hmrm.
  - intros Hchild. rewrite Hids. unfold own_ids, child_result. by rewrite Hchild.
  - rewrite Hids, NoDup_app. tauto.
Qed.

(** ** The builder's errors *)

Lemma string_app_assoc (a b c : string) : (a ++ (b ++ c) = (a ++ b) ++ c)%string.
Proof.
  induction a as [|x a IH]; [done|].
  change (String x (a ++ (b ++ c)) = String x ((a ++ b) ++ c))%string.
  by rewrite IH.
Qed.

Lemma names_pattern_prefixed (pre msg p : string) :
  names_pattern msg p → names_pattern (pre ++ msg) p.
Proof.
  intros (a & b & ->). exists (pre ++ a)%string, b. by rewrite string_app_assoc.
Qed.

Lemma names_pattern_suffixed (msg post p : string) :
  names_pattern msg p → names_pattern (msg ++ post) p.
Proof.
  intros (a & b & ->). exists a, (b ++ post)%string.
  by rewrite <-!string_app_assoc.
Qed.

Lemma names_pattern_self (p : string) : names_pattern p p.
Proof.
  exists ""%string, ""%string. change (p = p ++ "")%string.
  induction p as [|x p IH]; [done|].
  change (String x p = String x (p ++ ""))%string. by rewrite <-IH.
Qed.

Lemma join_names_elements (sep : string) (l : list string) (p : string) :
  p ∈ l → names_pattern (join sep l) p.
Proof.
  unfold join. induction l as [|x [|y l] IH]; intros Hin.
  - by apply elem_of_nil in Hin.
  - apply list_elem_of_singleton in Hin as ->. apply names_pattern_self.
  - change (names_pattern (x ++ sep ++ String.concat sep (y :: l)) p).
    apply elem_of_cons in Hin as [->|Hin].
    + apply names_pattern_suffixed, names_pattern_self.
    + by apply names_pattern_prefixed, names_pattern_prefixed, IH.
Qed.

Lemma get_path_is_key (paths : list (string * @PathValue Matcher Resolvable))
    (pattern : string) v :
  get_path paths pattern = Some v → pattern ∈ fmap fst paths.
Proof.
  induction paths as [|[k v'] paths IH]; [done|]. simpl.
  destruct (String.eqb_spec k pattern) as [->|_].
  - intros _. apply list_elem_of_here.
  - intros Hget. apply list_elem_of_further. by apply IH.
Qed.

(** C9. [map] without options fails with a plain error, and [map] on a
    paths object that holds a value that is not a function under some
    pattern fails with a [TypeError] whose message contains that pattern.
    Both are results of [map] itself: a class that [map] returns holds a
    function under every one of its patterns, so no pass of a node ever
    meets the condition. *)
Theorem construction_errors :
  map NoOptions = inl (PlainError "match() must be supplied with a paths object.") ∧
  (∀ paths pattern,
     get_path paths pattern = Some NotCallable →
     ∃ message,
       map (PathsOption paths) = inl (TypeError message) ∧
       names_pattern message pattern) ∧
  (∀ options cls,
     map options = inr cls →
     ∀ pattern, pattern ∈ patterns cls →
       not_a_function (paths cls) pattern = false).
Proof.
  split; [reflexivity|]. split.
  - intros paths pattern Hget. unfold map.
    set (invalidPaths :=
           filter (λ pattern, not_a_function paths pattern = true) (fmap fst paths)).
    assert (pattern ∈ invalidPaths) as Hin.
    { apply list_elem_of_filter. split; [|by eapply get_path_is_key].
      unfold not_a_function. by rewrite Hget. }
    assert (0 < length invalidPaths) as Hlen.
    { destruct invalidPaths; [by apply elem_of_nil in Hin|simpl; lia]. }
    apply Nat.ltb_lt in Hlen. rewrite Hlen.
    eexists. split; [reflexivity|].
    do 3 apply names_pattern_prefixed.
    by apply names_pattern_suffixed, join_names_elements.
  - intros options cls Hmap pattern Hpattern.
    assert (∀ ps : list (string * @PathValue Matcher Resolvable),
              filter (λ pattern, not_a_function ps pattern = true) (fmap fst ps) = [] →
              ∀ pattern, pattern ∈ fmap fst ps → not_a_function ps pattern = false) as Hvalid.
    { intros ps Hnone q Hq. destruct (not_a_function ps q) eqn:Hnf; [|done].
      exfalso. eapply (filter_nil_not_elem_of _ _ q Hnone); done. }
    unfold map in Hmap. destruct options as [|f|ps]; [done| |].
    + simpl in Hmap. simplify_eq. simpl in *.
      apply list_elem_of_singleton in Hpattern as ->. done.
    + destruct (0 <? length _) eqn:Hlen in Hmap; [done|]. simplify_eq. simpl in *.
      apply Hvalid; [|done]. apply Nat.ltb_nlt in Hlen.
      destruct (filter _ _); [done|simpl in Hlen; lia].
Qed.

End Properties.

End MapMatcherSpec.

(** * Further properties of the builder, the constructor and the passes *)
Module MapMatcherMore.
Import MapMatcher MapMatcherSpec.

(** ** The comparator *)

Lemma compareStrings_le (a b : string) :
  (compareStrings a b ≤ 0)%Z ↔ String.le a b.
Proof.
  unfold String.le, compareStrings, String.ltb, String.leb.
  rewrite (String.compare_antisym b a).
  destruct (String.compare a b); simpl; split; intros; lia || done.
Qed.

Lemma string_compare_refl (a : string) : String.compare a a = Eq.
Proof.
  induction a as [|x a IH]; [done|]. simpl.
  unfold Ascii.compare. by rewrite N.compare_refl.
Qed.

Lemma compareStrings_refl (a : string) : compareStrings a a = 0%Z.
Proof. unfold compareStrings, String.ltb. by rewrite string_compare_refl. Qed.

(** X1. [compareStrings] is the comparator of a total order on strings: it
    answers 0 exactly on equal strings, swapping the arguments negates the
    answer, the answer is -1, 0 or 1, and "not greater" is transitive. *)
Theorem compareStrings_total_order (a b c : string) :
  (compareStrings a b = 0%Z ↔ a = b) ∧
  compareStrings b a = (- compareStrings a b)%Z ∧
  (compareStrings a b = (-1)%Z ∨ compareStrings a b = 0%Z ∨ compareStrings a b = 1%Z) ∧
  ((compareStrings a b ≤ 0)%Z → (compareStrings b c ≤ 0)%Z → (compareStrings a c ≤ 0)%Z).
Proof.
  split_and!.
  - unfold compareStrings, String.ltb. rewrite (String.compare_antisym b a).
    destruct (String.compare a b) eqn:Hab; simpl; split; try done.
    + intros _. by apply String.compare_eq_iff.
    + intros ->. rewrite string_compare_refl in Hab. done.
    + intros ->. rewrite string_compare_refl in Hab. done.
  - unfold compareStrings, String.ltb. rewrite (String.compare_antisym b a).
    by destruct (String.compare a b).
  - unfold compareStrings. repeat case_match; auto.
  - rewrite !compareStrings_le. intros Hab Hbc.
    by apply (transitivity (R:=String.le) (y:=b)).
Qed.

Section More.

Context {RequestData EnvData Matcher Resolvable Resolver ResolverState : Type}.
Context {Error RegExp Segment InstanceState : Type}.
Context `{EqDecision Matcher}.
Context `{!@Collaborators RequestData EnvData Matcher Resolvable Resolver ResolverState
             Error RegExp Segment InstanceState}.
Context `{!@Diagnostics Matcher RegExp}.

(** ** The table that [map] builds *)

#[local] Instance key_le_transitive :
  Transitive (@key_le Matcher Resolvable RegExp).
Proof.
  intros x y z. unfold key_le. rewrite !compareStrings_le.
  apply (transitivity (R:=String.le)).
Qed.

Lemma key_le_total (x y : @Mapping Matcher Resolvable RegExp) :
  key_le x y ∨ key_le y x.
Proof.
  unfold key_le. rewrite !compareStrings_le. unfold String.le, String.leb.
  rewrite (String.compare_antisym (key y) (key x)).
  destruct (String.compare (key x) (key y)); simpl; auto.
Qed.

Lemma sort_insert_elem_of (x y : @Mapping Matcher Resolvable RegExp) l :
  y ∈ sort_insert x l ↔ y = x ∨ y ∈ l.
Proof.
  induction l as [|z l IH]; simpl.
  - rewrite list_elem_of_singleton, elem_of_nil. tauto.
  - case_match; rewrite !elem_of_cons; [rewrite IH|]; tauto.
Qed.

Lemma sort_insert_perm (x : @Mapping Matcher Resolvable RegExp) l :
  sort_insert x l ≡ₚ x :: l.
Proof.
  induction l as [|z l IH]; simpl; [done|].
  case_match; [|done]. rewrite IH. apply Permutation_swap.
Qed.

Lemma sort_insert_sorted (x : @Mapping Matcher Resolvable RegExp) l :
  StronglySorted key_le l → StronglySorted key_le (sort_insert x l).
Proof.
  induction l as [|z l IH]; simpl; intros Hsorted.
  - by repeat constructor.
  - apply StronglySorted_cons in Hsorted as [Hz Hl].
    destruct (compareStrings (key z) (key x) <=? 0)%Z eqn:Hzx.
    + apply StronglySorted_cons. split; [|by apply IH].
      apply Forall_forall. intros y Hy. apply sort_insert_elem_of in Hy as [->|Hy].
      * unfold key_le. lia.
      * by eapply Forall_forall in Hz.
    + assert (key_le x z) as Hxz.
      { destruct (key_le_total x z) as [|Hle]; [done|]. unfold key_le in Hle. lia. }
      apply StronglySorted_cons. split.
      * apply Forall_cons. split; [done|].
        eapply Forall_impl; [exact Hz|]. intros y Hy. by etrans.
      * by apply StronglySorted_cons.
Qed.

Lemma sort_mappings_spec (l : list (@Mapping Matcher Resolvable RegExp)) :
  StronglySorted key_le (sort_mappings l) ∧ sort_mappings l ≡ₚ l.
Proof.
  unfold sort_mappings.
  assert (∀ acc, StronglySorted key_le acc →
            StronglySorted key_le (fold_left (λ sorted x, sort_insert x sorted) l acc) ∧
            fold_left (λ sorted x, sort_insert x sorted) l acc ≡ₚ acc ++ l) as Hfold.
  { induction l as [|x l IH]; intros acc Hacc; simpl.
    - by rewrite app_nil_r.
    - destruct (IH (sort_insert x acc)) as [Hsorted Hperm]; [by apply sort_insert_sorted|].
      split; [done|]. rewrite Hperm, sort_insert_perm.
      by rewrite <-Permutation_middle. }
  destruct (Hfold []) as [Hsorted Hperm]; [constructor|]. done.
Qed.

Lemma StronglySorted_sorted_by_key (l : list (@Mapping Matcher Resolvable RegExp)) :
  StronglySorted key_le l → sorted_by_key l.
Proof.
  intros Hsorted i j x y Hij Hx Hy.
  rewrite <-(take_drop j l) in Hsorted.
  eapply StronglySorted_app_1_elem_of; [exact Hsorted| |].
  - apply list_elem_of_lookup. exists i. rewrite lookup_take_lt by done. done.
  - apply list_elem_of_lookup. exists 0. rewrite lookup_drop. by rewrite Nat.add_0_r.
Qed.

(** What [map] returns when it returns a class. *)
Lemma map_returns (options : MapOptions) cls :
  map options = inr cls →
  ∃ given : list (string * @PathValue Matcher Resolvable),
    (options = PathsOption given ∨ ∃ f, options = FunctionOption f ∧ given = [("/", Callable f)]) ∧
    filter (λ pattern, not_a_function given pattern = true) (fmap fst given) = [] ∧
    cls = {| paths := given;
             orderedMappings := sort_mappings (created_mappings given);
             patterns := fmap fst given |}.
Proof.
  unfold map. destruct options as [|f|given]; [done| |].
  - simpl. intros [= <-]. exists [("/", Callable f)]. split_and!; [right; by exists f|done..].
  - destruct (0 <? length _) eqn:Hlen; [done|]. intros [= <-].
    exists given. split_and!; [by left| |done].
    apply Nat.ltb_nlt in Hlen. destruct (filter _ _); [done|simpl in Hlen; lia].
Qed.

(** X2. The table of a class that [map] returns is in ascending order of
    the keys: no entry compares greater than a later one. *)
Theorem map_orders_by_key (options : MapOptions) cls :
  map options = inr cls →
  sorted_by_key (orderedMappings cls).
Proof.
  intros Hmap. apply map_returns in Hmap as (given & _ & _ & ->). simpl.
  apply StronglySorted_sorted_by_key, sort_mappings_spec.
Qed.

(** X3. Sorting neither drops nor adds entries: the table of a class that
    [map] returns is a rearrangement of one [createMapping(pattern,
    paths[pattern])] per pattern of the paths object, so it has as many
    entries as the object has patterns, and [patterns] lists them in the
    order of [Object.keys]. *)
Theorem map_keeps_every_pattern (options : MapOptions) cls :
  map options = inr cls →
  orderedMappings cls ≡ₚ created_mappings (paths cls) ∧
  length (orderedMappings cls) = length (patterns cls) ∧
  patterns cls = fmap (M:=list) fst (paths cls) ∧
  ∀ pattern, pattern ∈ patterns cls →
    ∃ m, get_path (paths cls) pattern = Some (Callable m) ∧
         createMapping pattern m ∈ orderedMappings cls.
Proof.
  intros Hmap. apply map_returns in Hmap as (given & _ & Hvalid & ->). simpl.
  destruct (sort_mappings_spec (created_mappings given)) as [_ Hperm].
  assert (∀ pattern, pattern ∈ fmap fst given →
            ∃ m, get_path given pattern = Some (Callable m)) as Hcallable.
  { intros pattern Hin.
    destruct (not_a_function given pattern) eqn:Hnf.
    - exfalso. by eapply (filter_nil_not_elem_of _ _ pattern Hvalid).
    - unfold not_a_function in Hnf. repeat case_match; try done. by eexists. }
  split_and!; [done| |done|].
  - rewrite Hperm. unfold created_mappings.
    generalize Hcallable. generalize (fmap fst given) as keys.
    induction keys as [|k keys IH]; intros Hkeys; [done|]. simpl.
    destruct (Hkeys k) as [m Hm]; [apply list_elem_of_here|]. rewrite Hm. simpl.
    f_equal. apply IH. intros q Hq. apply Hkeys. by apply list_elem_of_further.
  - intros pattern Hin. destruct (Hcallable pattern Hin) as [m Hm].
    exists m. split; [done|]. rewrite Hperm. unfold created_mappings.
    apply list_elem_of_omap. exists pattern. by rewrite Hm.
Qed.

(** X4. On a paths object [map] never fails with the plain error; it
    returns a class exactly when every pattern of the object holds a
    function, and fails with a [TypeError] exactly when some pattern does
    not. *)
Theorem map_succeeds_iff (given : list (string * @PathValue Matcher Resolvable)) :
  ((∃ cls, map (PathsOption given) = inr cls) ↔
     ∀ pattern, pattern ∈ fmap fst given → not_a_function given pattern = false) ∧
  ((∃ message, map (PathsOption given) = inl (TypeError message)) ↔
     ∃ pattern, pattern ∈ fmap fst given ∧ not_a_function given pattern = true) ∧
  ∀ message, map (PathsOption given) ≠ inl (PlainError message).
Proof.
  unfold map.
  set (invalidPaths :=
         filter (λ pattern, not_a_function given pattern = true) (fmap fst given)).
  assert (invalidPaths = [] ↔
          ∀ pattern, pattern ∈ fmap fst given → not_a_function given pattern = false)
    as Hnone.
  { split.
    - intros Hnil pattern Hin. destruct (not_a_function given pattern) eqn:Hnf; [|done].
      exfalso. by eapply (filter_nil_not_elem_of _ _ pattern Hnil).
    - intros Hall. destruct invalidPaths as [|q rest] eqn:Hq; [done|].
      assert (q ∈ invalidPaths) as Hin by (rewrite Hq; apply list_elem_of_here).
      apply list_elem_of_filter in Hin as [Hbad Hin]. rewrite (Hall q Hin) in Hbad. done. }
  assert (invalidPaths ≠ [] ↔
          ∃ pattern, pattern ∈ fmap fst given ∧ not_a_function given pattern = true)
    as Hsome.
  { split.
    - intros Hne. destruct invalidPaths as [|q rest] eqn:Hq; [done|].
      assert (q ∈ invalidPaths) as Hin by (rewrite Hq; apply list_elem_of_here).
      apply list_elem_of_filter in Hin as [Hbad Hin]. by exists q.
    - intros (q & Hin & Hbad) Hnil. rewrite (proj1 Hnone Hnil q Hin) in Hbad. done. }
  destruct (0 <? length invalidPaths) eqn:Hlen.
  - apply Nat.ltb_lt in Hlen.
    assert (invalidPaths ≠ []) as Hne by (intros Hnil; rewrite Hnil in Hlen; simpl in Hlen; lia).
    split_and!.
    + split; [by intros [? ?]|]. intros Hall. by destruct (Hne (proj2 Hnone Hall)).
    + split; [intros _; exact (proj1 Hsome Hne)|]. intros _. by eexists.
    + done.
  - apply Nat.ltb_nlt in Hlen.
    assert (invalidPaths = []) as Hnil by (destruct invalidPaths; [done|simpl in Hlen; lia]).
    split_and!.
    + split; [intros _; exact (proj1 Hnone Hnil)|]. intros _. by eexists.
    + split; [by intros [? ?]|]. intros Hbad. by destruct (proj2 Hsome Hbad).
    + done.
Qed.

(** X5. [map] applied to a function never fails: it builds the class of
    the paths object that holds the function under the root pattern.  When
    [createMapping] keeps that pattern, a node of the class takes the
    function as its child without running a path test, with the node's own
    environment, resolver and flag as the child's options. *)
Theorem map_function_shorthand f options :
  map (FunctionOption f) = map (PathsOption [("/", Callable f)]) ∧
  map (FunctionOption f) =
    inr {| paths := [("/", Callable f)];
           orderedMappings := [createMapping "/" f];
           patterns := ["/"] |} ∧
  (pattern (createMapping "/" f) = "/" →
   ∀ cls, map (FunctionOption f) = inr cls →
     ∃ this,
       constructor cls options = (this, []) ∧
       child this =
         Some {| mapping := createMapping "/" f;
                 matcherOptions := {| env := env options;
                                      resolver := resolver options;
                                      appendFinalSlash := appendFinalSlash options |};
                 child_maybeResolvableMatcher :=
                   maybeResolvableMatcher (createMapping "/" f) |}).
Proof.
  split_and!; [reflexivity..|].
  intros Hroot cls [= <-]. unfold constructor. simpl. rewrite Hroot. simpl.
  by eexists.
Qed.

(** ** The constructor on any table *)

(** The two ways the constructor goes: the single root entry, or the loop
    over the whole table. *)
Lemma constructor_cases cls options :
  ∃ c tested,
    constructor cls options =
      ({| this_env := env options; this_resolver := resolver options;
          this_appendFinalSlash := appendFinalSlash options;
          this_constructor := cls; child := c; last := None |}, tested) ∧
    ((∃ mapping0, orderedMappings cls = [mapping0] ∧ pattern mapping0 = "/" ∧
        c = Some (childOf mapping0 (env options) (resolver options)
                    (appendFinalSlash options)) ∧
        tested = []) ∨
     (¬ (∃ mapping0, orderedMappings cls = [mapping0] ∧ pattern mapping0 = "/") ∧
      constructor_loop (env options) (resolver options) (appendFinalSlash options)
        (orderedMappings cls) (length (orderedMappings cls)) = (c, tested))).
Proof.
  unfold constructor.
  destruct (orderedMappings cls) as [|m0 [|m1 rest]] eqn:Htable.
  - eexists _, _. split; [reflexivity|]. right. split; [by intros (? & ? & _)|done].
  - destruct (String.eqb_spec (pattern m0) "/") as [Hroot|Hroot].
    + eexists _, _. split; [reflexivity|]. left. by exists m0.
    + destruct (constructor_loop _ _ _ [m0] (length [m0])) as [c tested] eqn:Hloop.
      eexists _, _. split; [reflexivity|]. right. split; [|done].
      intros (m & [= <-] & Hm). done.
  - destruct (constructor_loop _ _ _ (m0 :: m1 :: rest) (length (m0 :: m1 :: rest)))
      as [c tested] eqn:Hloop.
    eexists _, _. split; [reflexivity|]. right. split; [by intros (? & ? & _)|done].
Qed.

(** X6. A table whose only entry does not have the root pattern goes
    through the loop: the constructor runs the path test of that entry, once,
    and the entry is the child exactly when the test succeeds. *)
Theorem selection_single_entry cls options mapping0 :
  orderedMappings cls = [mapping0] →
  pattern mapping0 ≠ "/" →
  ∃ this,
    constructor cls options = (this, [mapping0]) ∧
    child this =
      match mappingAgainstPathname (env options) mapping0 (appendFinalSlash options) with
      | Some childEnv =>
        Some {| mapping := mapping0;
                matcherOptions := {| env := childEnv;
                                     resolver := resolver options;
                                     appendFinalSlash := appendFinalSlash options |};
                child_maybeResolvableMatcher := maybeResolvableMatcher mapping0 |}
      | None => None
      end.
Proof.
  intros Htable Hroot. unfold constructor. rewrite Htable.
  apply String.eqb_neq in Hroot. rewrite Hroot. simpl.
  destruct (mappingAgainstPathname _ _ _); by eexists.
Qed.

(** X7. Whatever the table, a new node keeps the options it was built
    with and has no memo; a child, if there is one, is an entry of the
    table, carries that entry's handler, and shares the node's resolver and
    trailing-slash flag; and no entry is tested twice or invented: the
    entries tested are entries of the table, at most as many as it has. *)
Theorem constructor_child_shape cls options this tested :
  constructor cls options = (this, tested) →
  this_env this = env options ∧
  this_resolver this = resolver options ∧
  this_appendFinalSlash this = appendFinalSlash options ∧
  this_constructor this = cls ∧
  last this = None ∧
  (∀ c, child this = Some c →
     mapping c ∈ orderedMappings cls ∧
     child_maybeResolvableMatcher c = maybeResolvableMatcher (mapping c) ∧
     resolver (matcherOptions c) = this_resolver this ∧
     appendFinalSlash (matcherOptions c) = this_appendFinalSlash this) ∧
  (∀ m, m ∈ tested → m ∈ orderedMappings cls) ∧
  length tested ≤ length (orderedMappings cls).
Proof.
  intros Hnew.
  destruct (constructor_cases cls options) as (c & tested' & Hnew' & Hcases).
  rewrite Hnew in Hnew'. injection Hnew' as -> ->. simpl.
  split_and!; try done.
  - intros c' [= ->].
    destruct Hcases as [(m0 & Htable & _ & [= ->] & _)|[_ Hloop]].
    + simpl. split_and!; try done. rewrite Htable. apply list_elem_of_here.
    + destruct (constructor_loop_spec (env options) (resolver options)
                  (appendFinalSlash options) (orderedMappings cls)
                  (length (orderedMappings cls)) (le_n _))
        as (c & t & Hloop' & Hspec).
      rewrite Hloop in Hloop'. injection Hloop' as <- <-.
      destruct Hspec as [(k & m & ce & _ & Hm & _ & _ & [= ->] & _)|(_ & [=] & _)].
      simpl. split_and!; try done. apply list_elem_of_lookup. by exists k.
  - destruct Hcases as [(m0 & _ & _ & _ & ->)|[_ Hloop]].
    + intros m Hm. by apply elem_of_nil in Hm.
    + destruct (constructor_loop_spec (env options) (resolver options)
                  (appendFinalSlash options) (orderedMappings cls)
                  (length (orderedMappings cls)) (le_n _))
        as (c' & t & Hloop' & Hspec).
      rewrite Hloop in Hloop'. injection Hloop' as <- <-.
      intros m Hm.
      destruct Hspec as [(k & _ & _ & _ & _ & _ & _ & _ & ->)|(_ & _ & ->)];
        rewrite elem_of_reverse in Hm.
      * apply elem_of_take in Hm as (i & Hi & _). rewrite lookup_drop in Hi.
        apply list_elem_of_lookup. by eexists.
      * apply elem_of_take in Hm as (i & Hi & _).
        apply list_elem_of_lookup. by eexists.
  - destruct Hcases as [(m0 & _ & _ & _ & ->)|[_ Hloop]]; [simpl; lia|].
    destruct (constructor_loop_spec (env options) (resolver options)
                (appendFinalSlash options) (orderedMappings cls)
                (length (orderedMappings cls)) (le_n _))
      as (c' & t & Hloop' & Hspec).
    rewrite Hloop in Hloop'. injection Hloop' as <- <-.
    destruct Hspec as [(k & _ & _ & _ & _ & _ & _ & _ & ->)|(_ & _ & ->)];
      rewrite length_reverse, length_take; [rewrite length_drop|]; lia.
Qed.

(** X8. The entry a node of a class built by [map] selects is the most
    specific one that matches: every entry of the table whose path test
    succeeds against the node's environment has a key that does not compare
    greater than the key of the selected entry. *)
Theorem most_specific_match_wins (given : MapOptions) cls options this tested c m childEnv :
  map given = inr cls →
  constructor cls options = (this, tested) →
  child this = Some c →
  m ∈ orderedMappings cls →
  mappingAgainstPathname (env options) m (appendFinalSlash options) = Some childEnv →
  key_le m (mapping c).
Proof.
  intros Hmap Hnew Hchild Hm Htest.
  assert (sorted_by_key (orderedMappings cls)) as Hsorted.
  { apply map_returns in Hmap as (? & _ & _ & ->). simpl.
    apply StronglySorted_sorted_by_key, sort_mappings_spec. }
  destruct (constructor_cases cls options) as (c' & tested' & Hnew' & Hcases).
  rewrite Hnew in Hnew'. injection Hnew' as -> ->. simpl in Hchild. subst c'.
  destruct Hcases as [(m0 & Htable & _ & [= ->] & _)|[_ Hloop]].
  - rewrite Htable in Hm. apply list_elem_of_singleton in Hm as ->. simpl.
    unfold key_le. by rewrite compareStrings_refl.
  - destruct (constructor_loop_spec (env options) (resolver options)
                (appendFinalSlash options) (orderedMappings cls)
                (length (orderedMappings cls)) (le_n _))
      as (c' & t & Hloop' & Hspec).
    rewrite Hloop in Hloop'. injection Hloop' as <- <-.
    destruct Hspec as [(k & mk & ce & _ & Hk & _ & Hfail & [= ->] & _)|(_ & [=] & _)].
    simpl. apply list_elem_of_lookup in Hm as [j Hj].
    destruct (decide (j = k)) as [->|Hjk].
    + rewrite Hk in Hj. injection Hj as ->. unfold key_le. by rewrite compareStrings_refl.
    + destruct (decide (j < k)) as [Hlt|Hge].
      * by eapply Hsorted.
      * rewrite (Hfail j m) in Htest; [done| |done].
        split; [lia|]. by eapply lookup_lt_Some.
Qed.

(** ** The warnings of the builder *)

Lemma warnings_loop_spec (mappings : list (@Mapping Matcher Resolvable RegExp)) n :
  ∀ previous, mappings !! n = Some previous →
    length (warnings_loop mappings previous n) ≤ n ∧
    ∀ message, message ∈ warnings_loop mappings previous n →
      ∃ i earlier later,
        mappings !! i = Some earlier ∧ mappings !! S i = Some later ∧
        message = overlap_warning later earlier ∧
        replace_with_empty (key earlier) (regExp later) ≠ key earlier ∧
        replace_with_empty (key earlier) (regExp later) ≠ "" ∧
        (is_map (maybeResolvableMatcher later) = true ∨
         is_map (maybeResolvableMatcher earlier) = true).
Proof.
  induction n as [|i IH]; intros previous Hprevious; simpl.
  - split; [lia|]. intros message Hin. by apply elem_of_nil in Hin.
  - destruct (lookup_lt_is_Some_2 mappings i) as [current Hcurrent].
    { apply lookup_lt_Some in Hprevious. lia. }
    rewrite Hcurrent. destruct (IH current Hcurrent) as [Hlen Hrest].
    split.
    + rewrite length_app. repeat case_match; simpl; lia.
    + intros message Hin. apply elem_of_app in Hin as [Hin|Hin]; [|by apply Hrest].
      destruct (negb _ && _) eqn:Hoverlap in Hin; [|by apply elem_of_nil in Hin].
      destruct (is_map _ || is_map _) eqn:Hmaps in Hin; [|by apply elem_of_nil in Hin].
      apply list_elem_of_singleton in Hin as ->.
      apply andb_prop in Hoverlap as [Hdiffers Hnonempty].
      apply negb_true_iff, String.eqb_neq in Hdiffers.
      apply Nat.ltb_lt in Hnonempty.
      exists i, current, previous. split_and!; try done.
      * intros Hempty. rewrite Hempty in Hnonempty. simpl in Hnonempty. lia.
      * by apply orb_prop in Hmaps.
Qed.

Lemma map_warnings_loop_free production
    (mappings : list (@Mapping Matcher Resolvable RegExp)) message :
  message ∈ map_warnings production mappings →
  ∃ i earlier later,
    mappings !! i = Some earlier ∧ mappings !! S i = Some later ∧
    (is_map (maybeResolvableMatcher later) = true ∨
     is_map (maybeResolvableMatcher earlier) = true).
Proof.
  unfold map_warnings. destruct production; [by intros ?%elem_of_nil|].
  destruct (2 <=? length mappings) eqn:Hlen; [|by intros ?%elem_of_nil].
  apply Nat.leb_le in Hlen.
  destruct (lookup_lt_is_Some_2 mappings (length mappings - 1)) as [previous Hprevious];
    [lia|].
  rewrite Hprevious. intros Hin.
  destruct (warnings_loop_spec mappings _ previous Hprevious) as [_ Hpairs].
  destruct (Hpairs message Hin) as (i & earlier & later & ? & ? & _ & _ & _ & ?).
  by exists i, earlier, later.
Qed.

(** X9. The warnings of [map] never outnumber the adjacent pairs of the
    sorted table; there are none in production and none for a table of fewer
    than two entries.  Each warning is about two neighbours of the table:
    removing the match of the later entry's expression from the earlier
    entry's key changes the key without emptying it, and one of the two is a
    matcher of type "map". *)
Theorem map_warnings_adjacent_pairs production
    (mappings : list (@Mapping Matcher Resolvable RegExp)) :
  length (map_warnings production mappings) ≤ length mappings - 1 ∧
  (production = true → map_warnings production mappings = []) ∧
  (length mappings < 2 → map_warnings production mappings = []) ∧
  ∀ message, message ∈ map_warnings production mappings →
    ∃ i earlier later,
      mappings !! i = Some earlier ∧ mappings !! S i = Some later ∧
      message = overlap_warning later earlier ∧
      replace_with_empty (key earlier) (regExp later) ≠ key earlier ∧
      replace_with_empty (key earlier) (regExp later) ≠ "" ∧
      (is_map (maybeResolvableMatcher later) = true ∨
       is_map (maybeResolvableMatcher earlier) = true).
Proof.
  unfold map_warnings. destruct production.
  { split_and!; [simpl; lia|done|done|]. intros ? Hin. by apply elem_of_nil in Hin. }
  destruct (2 <=? length mappings) eqn:Hlen.
  - apply Nat.leb_le in Hlen.
    destruct (lookup_lt_is_Some_2 mappings (length mappings - 1)) as [previous Hprevious];
      [lia|].
    rewrite Hprevious.
    destruct (warnings_loop_spec mappings _ previous Hprevious) as [Hbound Hpairs].
    split_and!; [done|done|intros; lia|done].
  - apply Nat.leb_nle in Hlen.
    split_and!; [simpl; lia|done|done|]. intros ? Hin. by apply elem_of_nil in Hin.
Qed.

(** X10. A table without a matcher of type "map" (pages and functions
    that resolve later only) never draws a warning. *)
Theorem no_warning_without_maps production
    (mappings : list (@Mapping Matcher Resolvable RegExp)) :
  (∀ m, m ∈ mappings → is_map (maybeResolvableMatcher m) = false) →
  map_warnings production mappings = [].
Proof.
  intros Hnone.
  destruct (map_warnings production mappings) as [|message rest] eqn:Hwarnings; [done|].
  assert (message ∈ map_warnings production mappings) as Hin.
  { rewrite Hwarnings. apply list_elem_of_here. }
  destruct (map_warnings_loop_free production mappings message Hin)
    as (i & earlier & later & Hearlier & Hlater & Hmaps).
  destruct Hmaps as [Hmap|Hmap].
  - rewrite Hnone in Hmap; [done|]. apply list_elem_of_lookup. by eexists.
  - rewrite Hnone in Hmap; [done|]. apply list_elem_of_lookup. by eexists.
Qed.

(** ** Passes *)

(** X11. On every state the code itself produces a pass returns: it never
    reads the child of a node that has none and never asks a missing
    instance for its result. *)
Theorem pass_never_throws this w :
  history this w →
  ∃ result this' w',
    execute this w = Some ((result, this'), w') ∧ history this' w'.
Proof.
  intros Hhistory.
  destruct (execute_memo_ok this w (history_memo_ok this w Hhistory))
    as (result & this' & w' & Hrun & _).
  exists result, this', w'. split; [done|]. by eapply history_pass.
Qed.

(** X12. What the memo holds on every state the code produces: a node
    without a child never gets a memo; a memo holds an instance exactly when
    it holds a matcher, that instance is an object of the store, and for a
    child that is a matcher already the memo holds that very matcher. *)
Theorem memo_invariant this w :
  history this w →
  (child this = None → last this = None) ∧
  ∀ l, last this = Some l →
    (matcher l = None ↔ matcherInstance l = None) ∧
    (∀ i, matcherInstance l = Some i → is_Some (instances w !! i)) ∧
    (∀ c m, child this = Some c → child_maybeResolvableMatcher c = IsMatcher m →
       matcher l = Some m).
Proof.
  intros Hhistory.
  pose proof (history_memo_ok this w Hhistory) as Hmemo.
  assert ((child this = None → last this = None) ∧
          ∀ l c m, last this = Some l → child this = Some c →
            child_maybeResolvableMatcher c = IsMatcher m → matcher l = Some m)
    as [Hnone Hconcrete].
  { clear Hmemo.
    induction Hhistory as [cls options w|this w result this' w' Hh IH Hrun|this w rs more _ IH];
      [|clear Hh|done].
    - destruct (constructor_cases cls options) as (c & tested & -> & _). done.
    - destruct IH as [IHnone IHconcrete].
      destruct (child this) as [c|] eqn:Hchild.
      + pose proof (execute_frame _ _ _ _ _ Hrun) as (Hchild' & _).
        rewrite Hchild in Hchild'. unfold execute, bind, ret in Hrun.
        rewrite Hchild in Hrun. split; [congruence|].
        intros l c' m Hl Hc' Hmrm. rewrite Hchild' in Hc'. injection Hc' as <-.
        rewrite Hmrm in Hrun. simpl in Hrun.
        repeat (case_match; simplify_eq/=); done.
      + rewrite (execute_unselected this w Hchild) in Hrun. injection Hrun as _ <- _.
        split; [intros _; by apply IHnone|]. intros l c m _ Hc. congruence. }
  split; [done|]. intros l Hl. unfold memo_ok in Hmemo. rewrite Hl in Hmemo.
  destruct Hmemo as [Hiff Hstore]. split_and!; [done| |].
  - intros i Hi. apply lookup_lt_is_Some_2. by apply Hstore.
  - intros c m. by apply Hconcrete.
Qed.

(** X13. Over the whole life of a node its environment, resolver,
    trailing-slash flag, class and child stay what the constructor made them,
    so every pass builds its self segment from the same arguments. *)
Theorem self_segment_stable this this' :
  lifetime this this' →
  this_env this' = this_env this ∧
  this_resolver this' = this_resolver this ∧
  this_appendFinalSlash this' = this_appendFinalSlash this ∧
  this_constructor this' = this_constructor this ∧
  mapSegment_of this' = mapSegment_of this.
Proof.
  intros Hlife. apply lifetime_frame in Hlife as (_ & Henv & Hres & Hslash & Hcls).
  split_and!; try done. unfold mapSegment_of. by rewrite Henv, Hslash, Hcls.
Qed.

(** X14. A pass that returns adds at most one object to the store and
    touches no object but the child instance it leaves in the memo: every
    other object is found afterwards as it was before. *)
Theorem pass_store_frame this w result this' w' :
  memo_ok this w →
  execute this w = Some ((result, this'), w') →
  length (instances w) ≤ length (instances w') ≤ S (length (instances w)) ∧
  ∀ j, j < length (instances w) →
    (last this' ≫= matcherInstance) ≠ Some j →
    instances w' !! j = instances w !! j.
Proof.
  intros Hmemo Hrun. destruct (child this) as [c|] eqn:Hchild.
  - destruct (execute_selected this c w Hchild Hmemo)
      as (inst & w2 & result2 & w2' & Hrun2 & Hinst & Hout).
    rewrite Hrun in Hrun2. injection Hrun2 as -> -> ->. simpl.
    assert (instances w2 = instances w ∨
            ∃ x, instances w2 = (instances w ++ [x])%list ∧
                 inst = Some (length (instances w))) as Hstore.
    { destruct Hinst as [(_ & _ & _ & _ & ->)|[(m & _ & _ & -> & ->)|(_ & _ & _ & ->)]];
        rewrite ?after_resolve_instances; [by left| |by left].
      right. eexists. unfold allocate. simpl. by rewrite after_resolve_instances. }
    destruct inst as [i|].
    + destruct Hout as (s & Hs & _ & ->). simpl. rewrite length_insert.
      destruct Hstore as [->|(x & -> & [= ->])].
      * split; [lia|]. intros j Hj Hne. apply list_lookup_insert_ne. congruence.
      * rewrite length_app. simpl. split; [lia|]. intros j Hj Hne.
        rewrite list_lookup_insert_ne by congruence. by apply lookup_app_l.
    + destruct Hout as (_ & _ & _ & _ & ->).
      destruct Hstore as [->|(x & _ & [=])]. split; [lia|done].
  - rewrite (execute_unselected this w Hchild) in Hrun. injection Hrun as _ _ <-.
    split; [lia|done].
Qed.

(** X15. Once the matcher a node works with stops changing, so does the
    child: a pass that follows another one and works with the same matcher
    leaves the memo as it found it and builds nothing, whatever the resolver
    did and whatever was added to the store in between. *)
Theorem stable_handler_no_churn this this_child w result1 this1 w1 rs more :
  memo_ok this w →
  child this = Some this_child →
  execute this w = Some ((result1, this1), w1) →
  let later := {| resolverState := rs; instances := instances w1 ++ more |} in
  childMatcher_of this this_child later = childMatcher_of this this_child w →
  ∃ result2 this2 w2,
    execute this1 later = Some ((result2, this2), w2) ∧
    last this2 = last this1 ∧
    length (instances w2) = length (instances later).
Proof.
  intros Hmemo Hchild Hrun later Hsame.
  destruct (execute_memo_ok this w Hmemo) as (? & ? & ? & Hrun' & Hmemo1 & _).
  rewrite Hrun in Hrun'. injection Hrun' as <- <- <-.
  destruct (execute_selected this this_child w Hchild Hmemo)
    as (inst & w2 & result & w' & Hrun' & _ & _).
  rewrite Hrun in Hrun'. injection Hrun' as -> -> ->.
  set (this1 := set_last this {| matcherInstance := inst;
                                 matcher := childMatcher_of this this_child w |}) in *.
  assert (memo_ok this1 later) as Hmemo2.
  { unfold memo_ok in *. simpl in *. destruct Hmemo1 as [Hiff Hstore]. split; [done|].
    intros i Hi. specialize (Hstore i Hi). rewrite length_app. lia. }
  destruct (execute_selected this1 this_child later Hchild Hmemo2)
    as (inst2 & w3 & result2 & w4 & Hrun2 & Hinst2 & Hout2).
  assert (childMatcher_of this1 this_child later = childMatcher_of this this_child w) as Hh.
  { rewrite <-Hsame. done. }
  rewrite Hh in *. unfold memo_differs in Hinst2. simpl in Hinst2.
  destruct Hinst2 as [(l & [= <-] & _ & -> & ->)|[(? & Hne & _)|(Hne & _)]]; [|done..].
  simpl in *. eexists _, _, _. split; [exact Hrun2|]. split; [done|].
  destruct inst as [i|].
  - destruct Hout2 as (s & _ & _ & ->). simpl.
    by rewrite length_insert, after_resolve_instances.
  - destruct Hout2 as (_ & _ & _ & _ & ->). by rewrite after_resolve_instances.
Qed.

(** X16. A child that is a matcher already is used directly: the pass
    does not go through the resolver (the child sees the resolver's memory as
    the pass found it), reports no id of its own, and returns the self
    segment followed by the child's segments, never a placeholder.  The first
    pass builds the instance from the matcher and the child's options. *)
Theorem concrete_child_pass this this_child m w :
  memo_ok this w →
  child this = Some this_child →
  child_maybeResolvableMatcher this_child = IsMatcher m →
  ∃ result i w' s,
    execute this w =
      Some ((result, set_last this {| matcherInstance := Some i; matcher := Some m |}), w') ∧
    resolutionIds result = resolutionIds (getResult s (resolverState w)).1.1 ∧
    segments result = mapSegment_of this :: segments (getResult s (resolverState w)).1.1 ∧
    resolverState w' = (getResult s (resolverState w)).2 ∧
    instances w' !! i = Some (getResult s (resolverState w)).1.2 ∧
    (last this = None →
       i = length (instances w) ∧ s = newInstance m (matcherOptions this_child)).
Proof.
  intros Hmemo Hchild Hmrm.
  destruct (execute_selected this this_child w Hchild Hmemo)
    as (inst & w2 & result & w' & Hrun & Hinst & Hout).
  assert (childMatcher_of this this_child w = Some m) as Hh.
  { unfold childMatcher_of. by rewrite Hmrm. }
  assert (after_resolve this this_child w = w) as Hw.
  { unfold after_resolve. by rewrite Hmrm. }
  assert (own_ids this w = []) as Hown.
  { unfold own_ids, resolution_of. by rewrite Hchild, Hmrm. }
  rewrite Hh, Hw in *.
  destruct inst as [i|]; [|by destruct Hout as (? & _ & [=] & _)].
  assert (resolverState w2 = resolverState w) as Hrs.
  { by destruct Hinst as [(_ & _ & _ & _ & ->)|[(? & _ & _ & _ & ->)|(_ & _ & _ & ->)]]. }
  destruct Hout as (s & Hs & Hresult & Hw'). rewrite Hown, Hrs in Hresult.
  rewrite Hrs in Hw'. subst result w'.
  eexists _, i, _, s. split; [exact Hrun|]. simpl. split_and!; try done.
  - apply list_lookup_insert_eq. by eapply lookup_lt_Some.
  - intros Hlast. unfold memo_differs in Hinst. rewrite Hlast in Hinst.
    destruct Hinst as [(? & [=] & _)|[(m' & _ & [= <-] & [= ->] & ->)|(_ & [=] & _)]].
    split; [done|]. unfold allocate in Hs. simpl in Hs.
    rewrite (list_lookup_middle _ [] _ _ eq_refl) in Hs. by injection Hs.
Qed.



End More.

End MapMatcherMore.

(** * The properties on the small site *)
Module SiteChecks.
Import MapMatcher Demo Replay MapMatcherSpec.

Example lazyNode_first_pass :
  execute lazyNode (world (Resolved 3) []) =
    Some (({| resolutionIds := [7%Z];
              segments := [MapSegment "map" "/lazy" 1 false; PageSegment 3 "/lazy"] |},
           visitedNode), world (Resolved 3) visitedStore).
Proof. reflexivity. Qed.

Lemma visitedNode_memo_ok st : memo_ok visitedNode (world st visitedStore).
Proof.
  split; [split; discriminate|]. intros i [= <-]. simpl. lia.
Defined.

Lemma selection_general_case_witness :
  2 ≤ length (orderedMappings pages) ∧
  ∃ this tested,
    constructor pages (optionsAt "/about/team") = (this, tested) ∧
    tested = reverse (drop 1 (orderedMappings pages)) ∧
    child this = child aboutNode ∧
    ∀ this', lifetime this this' → child this' = child this.
Proof.
  assert (2 ≤ length (orderedMappings pages)) as Hlen by (vm_compute; lia).
  split; [exact Hlen|].
  destruct (selection_general_case pages (optionsAt "/about/team") Hlen)
    as (this & tested & Hnew & _ & Hlife).
  exists this, tested. vm_compute in Hnew.
  injection Hnew as <- <-. split_and!; [reflexivity..|exact Hlife].
Defined.

Lemma selection_root_only_witness :
  orderedMappings lazyRoot = [mapping lazyChild] ∧
  pattern (mapping lazyChild) = "/" ∧
  ∃ this,
    constructor lazyRoot (optionsAt "/lazy") = (this, []) ∧
    child this = Some lazyChild.
Proof.
  split_and!; [reflexivity..|].
  exact (selection_root_only lazyRoot (optionsAt "/lazy") (mapping lazyChild)
           eq_refl eq_refl).
Defined.

Lemma unselected_pass_witness :
  child lostNode = None ∧
  ∃ result,
    execute lostNode (world Pending []) = Some ((result, lostNode), world Pending []) ∧
    (path (request (this_env lostNode)) ≠ "" →
       segments result = [MapSegment "map" "nowhere" 3 false; NotFoundSegment "nowhere"]) ∧
    (path (request (this_env lostNode)) = "" →
       segments result = [MapSegment "map" "nowhere" 3 false]).
Proof.
  split; [reflexivity|].
  exact (unselected_pass lostNode (world Pending []) eq_refl).
Defined.

Lemma self_segment_first_witness :
  memo_ok visitedNode (world (Resolved 3) visitedStore) ∧
  ∃ result this' w',
    execute visitedNode (world (Resolved 3) visitedStore) = Some ((result, this'), w') ∧
    segments result = [MapSegment "map" "/lazy" 1 false; PageSegment 3 "/lazy"].
Proof.
  split; [apply visitedNode_memo_ok|].
  exact (self_segment_first visitedNode (world (Resolved 3) visitedStore)
           (visitedNode_memo_ok _)).
Defined.

Lemma pending_resolution_witness :
  memo_ok lazyNode (world Pending []) ∧
  child lazyNode = Some lazyChild ∧
  child_maybeResolvableMatcher lazyChild = IsResolvable 7 ∧
  value (settle 7 Pending) = None ∧
  error (settle 7 Pending) = None ∧
  ∃ result this' w',
    execute lazyNode (world Pending []) = Some ((result, this'), w') ∧
    segments result =
      [MapSegment "map" "/lazy" 1 false; NotReadySegment "/lazy" None false].
Proof.
  split_and!; [exact I|reflexivity..|].
  exact (pending_resolution lazyNode lazyChild 7 (world Pending [])
           I eq_refl eq_refl eq_refl eq_refl).
Defined.

Lemma resolution_error_is_data_witness :
  memo_ok lazyNode (world (Failed "offline") []) ∧
  child lazyNode = Some lazyChild ∧
  child_maybeResolvableMatcher lazyChild = IsResolvable 7 ∧
  value (settle 7 (Failed "offline")) = None ∧
  error (settle 7 (Failed "offline")) = Some "offline" ∧
  ∃ result w',
    execute lazyNode (world (Failed "offline") []) =
      Some ((result, set_last lazyNode {| matcherInstance := None; matcher := None |}), w') ∧
    segments result =
      [MapSegment "map" "/lazy" 1 false; NotReadySegment "/lazy" (Some "offline") false] ∧
    ∃ result2 this2 w2,
      execute (set_last lazyNode {| matcherInstance := None; matcher := None |})
        (world (Resolved 3) []) = Some ((result2, this2), w2) ∧
      segments result2 = [MapSegment "map" "/lazy" 1 false; PageSegment 3 "/lazy"].
Proof.
  split_and!; [exact I|reflexivity..|].
  pose proof (resolution_error_is_data lazyNode lazyChild 7
                (world (Failed "offline") []) "offline") as Hpass.
  destruct (Hpass I eq_refl eq_refl eq_refl eq_refl)
    as (result & w' & Hrun & Hsegments & Hlater).
  exists result, w'. split_and!; [exact Hrun|exact Hsegments|].
  exact (Hlater (world (Resolved 3) []) 3 eq_refl).
Defined.


Lemma resolution_ids_witness :
  memo_ok lazyNode (holding staleError []) ∧
  ∃ result this' w',
    execute (H:=replay) lazyNode (holding staleError []) = Some ((result, this'), w') ∧
    resolutionIds result = [7%Z; 3%Z] ∧
    own_ids (H:=replay) lazyNode (holding staleError []) = [7%Z] ∧
    NoDup (resolutionIds result).
Proof.
  split; [exact I|].
  destruct (resolution_ids (H:=replay) lazyNode (holding staleError []) I)
    as (result & this' & w' & Hrun & Hids & Hown & _ & _ & Hnodup).
  exists result, this', w'. split_and!; [exact Hrun|exact Hids| |].
  - exact (Hown lazyChild 7 eq_refl eq_refl).
  - apply Hnodup. split.
    + apply NoDup_singleton.
    + intros x Hx. apply list_elem_of_singleton in Hx as ->.
      intros Hin. apply list_elem_of_singleton in Hin. discriminate Hin.
Defined.

Example map_rejects_values_that_are_not_functions :
  map (PathsOption brokenPaths)
  = inl (TypeError "The given paths: /a, /c are invalid. Paths should be a matcher object or function that returns one. See https://frontarm.com/navi/reference/declarations/").
Proof. reflexivity. Qed.

Lemma construction_errors_witness :
  get_path brokenPaths "/c" = Some NotCallable ∧
  ∃ message,
    map (PathsOption brokenPaths) = inl (TypeError message) ∧
    names_pattern message "/c".
Proof.
  split; [reflexivity|].
  exact (proj1 (proj2 construction_errors) brokenPaths "/c" eq_refl).
Defined.

Lemma empty_paths_object_witness :
  path (request (env (optionsAt "/lazy"))) ≠ "" ∧
  ∃ cls this result,
    map (PathsOption []) = inr cls ∧
    constructor cls (optionsAt "/lazy") = (this, []) ∧
    execute this (world Pending []) = Some ((result, this), world Pending []) ∧
    segments result = [MapSegment "map" "/lazy" 0 false; NotFoundSegment "/lazy"].
Proof.
  assert (path (request (env (optionsAt "/lazy"))) ≠ "") as Hpath by discriminate.
  split; [exact Hpath|].
  destruct empty_paths_object as (cls & Hmap & Htable & Hnodes).
  destruct (Hnodes (optionsAt "/lazy")) as (this & Hnew & _ & Hlife).
  destruct (Hlife this (lifetime_start this)) as (_ & Hpass).
  destruct (Hpass (world Pending []) Hpath) as (result & Hrun & Hsegments).
  exists cls, this, result. split_and!; [exact Hmap|exact Hnew|exact Hrun|].
  rewrite Hsegments. unfold mapSegment_of.
  unfold constructor in Hnew. rewrite Htable in Hnew. simpl in Hnew.
  injection Hnew as <-. simpl. by rewrite Htable.
Defined.

(** C3 as worded fails twice.  On a pass whose resolution has settled the
    id of the resolution is returned although nothing is pending and the page
    reports no id.  And when the child reports the id of the node's own
    resolution, the pass returns that id twice. *)
Lemma resolution_ids_as_worded_fail :
  ¬ ids_pending_or_reported lazyNode (world (Resolved 3) []) ∧
  ¬ ids_without_duplicates (H:=replay) lazyNode (holding sameId []).
Proof.
  split.
  - intros Hids.
    destruct (Hids _ _ _ eq_refl 7%Z) as [Hin|(s & rs & Hin)].
    + apply list_elem_of_here.
    + by apply elem_of_nil in Hin.
    + by apply elem_of_nil in Hin.
  - intros Hnodup.
    pose proof (Hnodup _ _ _ eq_refl) as Hids.
    change (NoDup [3%Z; 3%Z]) in Hids.
    apply NoDup_cons in Hids as [Hnotin _]. apply Hnotin, list_elem_of_here.
Qed.

End SiteChecks.

(** * The further properties on the small site *)
Module MoreSiteChecks.
Import MapMatcher Demo Replay MapMatcherSpec MapMatcherMore SiteChecks.

Lemma map_orders_by_key_witness :
  map (PathsOption (paths pages)) = inr pages ∧
  sorted_by_key (orderedMappings pages).
Proof.
  split; [reflexivity|].
  exact (map_orders_by_key (PathsOption (paths pages)) pages eq_refl).
Defined.

Lemma map_keeps_every_pattern_witness :
  map (PathsOption (paths pages)) = inr pages ∧
  orderedMappings pages ≡ₚ created_mappings (paths pages) ∧
  length (orderedMappings pages) = length (patterns pages).
Proof.
  split; [reflexivity|].
  destruct (map_keeps_every_pattern (PathsOption (paths pages)) pages eq_refl)
    as (Hperm & Hlen & _).
  split; [exact Hperm|exact Hlen].
Defined.

Lemma selection_single_entry_witness :
  orderedMappings aboutOnly = [aboutMapping] ∧
  pattern aboutMapping ≠ "/" ∧
  ∃ this,
    constructor aboutOnly (optionsAt "/about/team") = (this, [aboutMapping]) ∧
    child this = Some aboutChild.
Proof.
  assert (pattern aboutMapping ≠ "/") as Hroot by discriminate.
  split_and!; [reflexivity|exact Hroot|].
  exact (selection_single_entry aboutOnly (optionsAt "/about/team") aboutMapping
           eq_refl Hroot).
Defined.

Lemma constructor_child_shape_witness :
  constructor pages (optionsAt "/about/team")
    = (aboutNode, reverse (drop 1 (orderedMappings pages))) ∧
  last aboutNode = None ∧
  (∀ c, child aboutNode = Some c →
     mapping c ∈ orderedMappings pages ∧
     child_maybeResolvableMatcher c = maybeResolvableMatcher (mapping c) ∧
     resolver (matcherOptions c) = this_resolver aboutNode ∧
     appendFinalSlash (matcherOptions c) = this_appendFinalSlash aboutNode).
Proof.
  assert (constructor pages (optionsAt "/about/team")
            = (aboutNode, reverse (drop 1 (orderedMappings pages)))) as Hnew by reflexivity.
  split; [exact Hnew|].
  destruct (constructor_child_shape pages (optionsAt "/about/team") aboutNode
              (reverse (drop 1 (orderedMappings pages))) Hnew)
    as (_ & _ & _ & _ & Hlast & Hchild & _).
  split; [exact Hlast|exact Hchild].
Defined.

Lemma most_specific_match_wins_witness :
  map (PathsOption (paths pages)) = inr pages ∧
  constructor pages (optionsAt "/about/team")
    = (aboutNode, reverse (drop 1 (orderedMappings pages))) ∧
  child aboutNode = Some aboutChild ∧
  rootMapping ∈ orderedMappings pages ∧
  mappingAgainstPathname (env (optionsAt "/about/team")) rootMapping false
    = Some (envOf "about/team") ∧
  key_le rootMapping (mapping aboutChild).
Proof.
  assert (rootMapping ∈ orderedMappings pages) as Hin by apply list_elem_of_here.
  assert (constructor pages (optionsAt "/about/team")
            = (aboutNode, reverse (drop 1 (orderedMappings pages)))) as Hnew by reflexivity.
  assert (mappingAgainstPathname (env (optionsAt "/about/team")) rootMapping false
            = Some (envOf "about/team")) as Htest by reflexivity.
  split_and!; [reflexivity|exact Hnew|reflexivity|exact Hin|exact Htest|].
  pose proof (most_specific_match_wins (PathsOption (paths pages)) pages
                (optionsAt "/about/team") aboutNode _ aboutChild rootMapping
                (envOf "about/team") eq_refl Hnew) as Hwins.
  exact (Hwins eq_refl Hin Htest).
Defined.

Lemma no_warning_without_maps_witness :
  (∀ m, m ∈ orderedMappings pages → is_map (maybeResolvableMatcher m) = false) ∧
  map_warnings false (orderedMappings pages) = [].
Proof.
  assert (∀ m, m ∈ orderedMappings pages → is_map (maybeResolvableMatcher m) = false)
    as Hpages.
  { intros m Hm. change (m ∈ [rootMapping; aboutMapping;
                                {| pattern := "/lazy"; key := "/lazy"; regExp := tt;
                                   maybeResolvableMatcher := IsResolvable 7 |}]) in Hm.
    repeat (apply elem_of_cons in Hm as [->|Hm]; [reflexivity|]).
    by apply elem_of_nil in Hm. }
  split; [exact Hpages|].
  exact (no_warning_without_maps false (orderedMappings pages) Hpages).
Defined.

Lemma pass_never_throws_witness :
  history lazyNode (world Pending []) ∧
  ∃ result this' w',
    execute lazyNode (world Pending []) = Some ((result, this'), w') ∧
    history this' w'.
Proof.
  assert (history lazyNode (world Pending [])) as Hnew.
  { exact (history_new lazyRoot (optionsAt "/lazy") (world Pending [])). }
  split; [exact Hnew|].
  exact (pass_never_throws lazyNode (world Pending []) Hnew).
Defined.

Lemma visitedNode_history : history visitedNode (world (Resolved 3) visitedStore).
Proof.
  eapply history_pass; [|exact lazyNode_first_pass].
  exact (history_new lazyRoot (optionsAt "/lazy") (world (Resolved 3) [])).
Defined.

Lemma memo_invariant_witness :
  history visitedNode (world (Resolved 3) visitedStore) ∧
  (child visitedNode = None → last visitedNode = None) ∧
  ∀ l, last visitedNode = Some l →
    (matcher l = None ↔ matcherInstance l = None) ∧
    (∀ i, matcherInstance l = Some i → is_Some (visitedStore !! i)).
Proof.
  split; [exact visitedNode_history|].
  destruct (memo_invariant visitedNode (world (Resolved 3) visitedStore)
              visitedNode_history) as [Hnone Hmemo].
  split; [exact Hnone|]. intros l Hl.
  destruct (Hmemo l Hl) as (Hiff & Hstore & _). split; [exact Hiff|exact Hstore].
Defined.

Lemma visitedNode_lifetime : lifetime lazyNode visitedNode.
Proof.
  eapply lifetime_pass; [apply lifetime_start|exact lazyNode_first_pass].
Defined.

Lemma self_segment_stable_witness :
  lifetime lazyNode visitedNode ∧
  mapSegment_of visitedNode = mapSegment_of lazyNode.
Proof.
  split; [exact visitedNode_lifetime|].
  exact (proj2 (proj2 (proj2 (proj2
           (self_segment_stable lazyNode visitedNode visitedNode_lifetime))))).
Defined.

Lemma pass_store_frame_witness :
  memo_ok visitedNode (world (Resolved 4) (visitedStore ++ visitedStore)) ∧
  ∃ result this' w',
    execute visitedNode (world (Resolved 4) (visitedStore ++ visitedStore))
      = Some ((result, this'), w') ∧
    length (instances w') = 3 ∧
    instances w' !! 0 = Some {| page := 3; url := "/lazy"; visits := 1 |} ∧
    instances w' !! 1 = Some {| page := 3; url := "/lazy"; visits := 1 |}.
Proof.
  assert (memo_ok visitedNode (world (Resolved 4) (visitedStore ++ visitedStore))) as Hmemo.
  { split; [split; discriminate|]. intros i [= <-]. simpl. lia. }
  split; [exact Hmemo|].
  destruct (execute visitedNode (world (Resolved 4) (visitedStore ++ visitedStore)))
    as [[[result this'] w']|] eqn:Hrun; [|discriminate Hrun].
  destruct (pass_store_frame _ _ _ _ _ Hmemo Hrun) as [_ Hframe].
  exists result, this', w'. split; [reflexivity|].
  injection Hrun as <- <- <-. split_and!; reflexivity.
Defined.

Lemma stable_handler_no_churn_witness :
  memo_ok lazyNode (world (Resolved 3) []) ∧
  child lazyNode = Some lazyChild ∧
  childMatcher_of lazyNode lazyChild (world (Resolved 3) (visitedStore ++ []))
    = childMatcher_of lazyNode lazyChild (world (Resolved 3) []) ∧
  ∃ result2 this2 w2,
    execute visitedNode (world (Resolved 3) (visitedStore ++ []))
      = Some ((result2, this2), w2) ∧
    last this2 = last visitedNode ∧
    length (instances w2) = 1.
Proof.
  split_and!; [exact I|reflexivity..|].
  pose proof (stable_handler_no_churn lazyNode lazyChild (world (Resolved 3) [])
                _ visitedNode (world (Resolved 3) visitedStore) (Resolved 3) []
                I eq_refl lazyNode_first_pass) as Hstable.
  exact (Hstable eq_refl).
Defined.

Lemma concrete_child_pass_witness :
  memo_ok aboutNode (world Pending []) ∧
  child aboutNode = Some aboutChild ∧
  child_maybeResolvableMatcher aboutChild = IsMatcher 1 ∧
  ∃ result w',
    execute aboutNode (world Pending [])
      = Some ((result,
               set_last aboutNode {| matcherInstance := Some 0; matcher := Some 1 |}), w') ∧
    resolutionIds result = [] ∧
    segments result = [MapSegment "map" "/about/team" 3 false; PageSegment 1 "/team"].
Proof.
  split_and!; [exact I|reflexivity..|].
  pose proof (concrete_child_pass aboutNode aboutChild 1 (world Pending [])) as Hpass.
  destruct (Hpass I eq_refl eq_refl)
    as (result & i & w' & s & Hrun & Hids & Hsegments & _ & _ & Hfirst).
  destruct (Hfirst eq_refl) as [-> ->].
  exists result, w'. split_and!; [exact Hrun|exact Hids|exact Hsegments].
Defined.



End MoreSiteChecks.
